(** * Character-encoding analysis engine of the text/byte visualiser

    A shallow embedding of the analysis code of the application: the
    inlined utilities of the bundled entry file ([Inlined], from
    src/unnamed/part_000) and the stand-alone module ([UtilsEncoding],
    from src/utils/encoding.js), together with the platform built-ins they
    call.

    JavaScript strings are sequences of UTF-16 code units, byte arrays are
    lists of integers, [null] is [None], and a computation that may throw is
    a value of [completion]. *)

From Stdlib Require Import String Ascii.
From Stdlib Require Import ZArith List Lia Bool.
Import ListNotations.
Open Scope Z_scope.

(* ================================================================== *)
(** * Strings *)
(* ================================================================== *)

(** A JavaScript string: its UTF-16 code units. *)
Definition jsstring := list Z.

(** An ASCII literal as a JavaScript string. *)
Definition lit (s : string) : jsstring :=
  map (fun a => Z.of_N (N_of_ascii a)) (list_ascii_of_string s).

Definition jsstring_eqb (a b : jsstring) : bool :=
  if list_eq_dec Z.eq_dec a b then true else false.

Definition is_high_surrogate (u : Z) : bool := (0xD800 <=? u) && (u <=? 0xDBFF).
Definition is_low_surrogate (u : Z) : bool := (0xDC00 <=? u) && (u <=? 0xDFFF).
Definition is_surrogate (u : Z) : bool := (0xD800 <=? u) && (u <=? 0xDFFF).

(** The code point of a surrogate pair. *)
Definition pair_value (hi lo : Z) : Z :=
  (hi - 0xD800) * 0x400 + (lo - 0xDC00) + 0x10000.

(** [Array.from(text)] on a string: the string iterator yields one element
    per code point; a high surrogate followed by a low surrogate is one
    element, any other code unit (a lone surrogate too) is one element. *)
Fixpoint Array_from (s : jsstring) : list jsstring :=
  match s with
  | [] => []
  | u :: rest =>
      match rest with
      | v :: rest' =>
          if is_high_surrogate u && is_low_surrogate v
          then [u; v] :: Array_from rest'
          else [u] :: Array_from rest
      | [] => [[u]]
      end
  end.

(** [s.codePointAt(0)]; [None] is [undefined] (the empty string). *)
Definition codePointAt0 (s : jsstring) : option Z :=
  match s with
  | [] => None
  | u :: rest =>
      match rest with
      | v :: _ =>
          if is_high_surrogate u && is_low_surrogate v
          then Some (pair_value u v) else Some u
      | [] => Some u
      end
  end.

(* ================================================================== *)
(** * Number and string built-ins used by the formatting helpers *)
(* ================================================================== *)

(** The character of a digit value: '0'..'9' then 'a'..'z'. *)
Definition digit_char (d : Z) : Z := if d <? 10 then 48 + d else 87 + d.

(** Digit values of [n] in base [radix], most significant first. *)
Fixpoint digits_aux (fuel : nat) (radix n : Z) (acc : list Z) : list Z :=
  match fuel with
  | O => acc
  | S f =>
      let acc' := (n mod radix) :: acc in
      if n <? radix then acc' else digits_aux f radix (n / radix) acc'
  end.

Definition digits (radix n : Z) : list Z :=
  digits_aux (S (Z.to_nat (Z.log2 n))) radix n [].

(** [n.toString(radix)] for a non-negative integer [n] and a radix in
    2..36 (the only use in the code: bytes and code points, radix 2 and 16). *)
Definition Number_toString (radix n : Z) : jsstring :=
  map digit_char (digits radix n).

(** [s.toUpperCase()], on the ASCII letters; the code applies it to
    radix-16 digit strings only. *)
Definition upper_unit (u : Z) : Z :=
  if (97 <=? u) && (u <=? 122) then u - 32 else u.

Definition toUpperCase (s : jsstring) : jsstring := map upper_unit s.

(** [s.padStart(target, fill)]. *)
Definition padStart (target : nat) (fill s : jsstring) : jsstring :=
  let k := (target - length s)%nat in
  firstn k (concat (repeat fill k)) ++ s.

(** [parts.join(sep)]. *)
Fixpoint join (sep : jsstring) (parts : list jsstring) : jsstring :=
  match parts with
  | [] => []
  | x :: rest =>
      match rest with
      | [] => x
      | _ :: _ => x ++ sep ++ join sep rest
      end
  end.

(* ================================================================== *)
(** * The universal encoder: [new TextEncoder().encode(str)] *)
(* ================================================================== *)

(** The scalar values of a string; a lone surrogate becomes U+FFFD. *)
Fixpoint scalar_values (s : jsstring) : list Z :=
  match s with
  | [] => []
  | u :: rest =>
      match rest with
      | v :: rest' =>
          if is_high_surrogate u && is_low_surrogate v
          then pair_value u v :: scalar_values rest'
          else (if is_surrogate u then 0xFFFD else u) :: scalar_values rest
      | [] => [if is_surrogate u then 0xFFFD else u]
      end
  end.

(** UTF-8 bytes of one scalar value. *)
Definition utf8_of_scalar (cp : Z) : list Z :=
  if cp <? 0x80 then [cp]
  else if cp <? 0x800 then
    [Z.lor 0xC0 (Z.shiftr cp 6); Z.lor 0x80 (Z.land cp 0x3F)]
  else if cp <? 0x10000 then
    [Z.lor 0xE0 (Z.shiftr cp 12);
     Z.lor 0x80 (Z.land (Z.shiftr cp 6) 0x3F);
     Z.lor 0x80 (Z.land cp 0x3F)]
  else
    [Z.lor 0xF0 (Z.shiftr cp 18);
     Z.lor 0x80 (Z.land (Z.shiftr cp 12) 0x3F);
     Z.lor 0x80 (Z.land (Z.shiftr cp 6) 0x3F);
     Z.lor 0x80 (Z.land cp 0x3F)].

Definition TextEncoder_encode (s : jsstring) : list Z :=
  flat_map utf8_of_scalar (scalar_values s).

(** [toUTF8Array], the same in both files. *)
Definition toUTF8Array (str : jsstring) : list Z := TextEncoder_encode str.

(* ================================================================== *)
(** * Completions: a computation returns a value or throws *)
(* ================================================================== *)

Inductive completion (A : Type) : Type :=
| Normal (a : A)
| Throw.
Arguments Normal {A} a.
Arguments Throw {A}.

Definition bind {A B} (c : completion A) (k : A -> completion B) : completion B :=
  match c with
  | Normal a => k a
  | Throw => Throw
  end.

(** [try { c } catch (e) { handler }]. *)
Definition try_catch {A} (c : completion A) (handler : completion A) : completion A :=
  match c with
  | Normal a => Normal a
  | Throw => handler
  end.

Notation "x <- c ;; k" := (bind c (fun x => k))
  (at level 61, c at next level, right associativity).

(** [arr.map((x, index) => f x index)] with a callback that may throw. *)
Fixpoint map_indexed {A B} (f : A -> Z -> completion B) (index : Z) (l : list A)
  : completion (list B) :=
  match l with
  | [] => Normal []
  | x :: rest =>
      y <- f x index ;;
      ys <- map_indexed f (index + 1) rest ;;
      Normal (y :: ys)
  end.

(* ================================================================== *)
(** * The legacy codec: the [Encoding] global of the third-party library *)
(* ================================================================== *)

Inductive encoding_name := SJIS | UNICODE | UTF8.

(** The part of the library the code calls. [convert_array] is
    [convert(data, {to, from, type: 'array'})], [convert_string] is
    [convert(data, {to, from, type: 'string'})] and [convert_untyped] is
    [convert(data, {to, from})]. Every call may throw. *)
Record EncodingLib := {
  stringToCode : jsstring -> completion (list Z);
  convert_array : list Z -> encoding_name -> encoding_name -> completion (list Z);
  convert_string : list Z -> encoding_name -> encoding_name -> completion jsstring;
  convert_untyped : list Z -> encoding_name -> encoding_name -> completion (list Z)
}.

(** A value that is [null] or a boolean, as [a && b] yields when [a] is an
    array or [null]. *)
Inductive flag := FNull | FBool (b : bool).

Definition truthy (f : flag) : bool :=
  match f with
  | FNull => false
  | FBool b => b
  end.

(* ================================================================== *)
(** * Formatting callbacks, the same in both files *)
(* ================================================================== *)

(** [b => b.toString(16).toUpperCase().padStart(2, '0')] *)
Definition hex_of_byte (b : Z) : jsstring :=
  padStart 2 (lit "0") (toUpperCase (Number_toString 16 b)).

(** [b => b.toString(2).padStart(8, '0')] *)
Definition binary_of_byte (b : Z) : jsstring :=
  padStart 8 (lit "0") (Number_toString 2 b).

(** ['U+' + n.toString(16).toUpperCase().padStart(4, '0')] *)
Definition codePoint_label (n : Z) : jsstring :=
  lit "U+" ++ padStart 4 (lit "0") (toUpperCase (Number_toString 16 n)).

(** [x.toString(...)] on the result of [codePointAt(0)]: a TypeError on
    [undefined]. *)
Definition codePoint_of (char : jsstring) : completion jsstring :=
  match codePointAt0 char with
  | None => Throw
  | Some n => Normal (codePoint_label n)
  end.

(* ================================================================== *)
(** * src/unnamed/part_000: the inlined utilities and the views *)
(* ================================================================== *)

Module Inlined.

Record Utf8View := {
  utf8_bytes : list Z;
  utf8_length : Z;
  utf8_hex : jsstring;
  utf8_binary : jsstring
}.

Record SjisView := {
  sjis_bytes : list Z;
  sjis_length : Z;
  sjis_hex : jsstring;
  sjis_binary : jsstring;
  sjis_isValid : flag
}.

Record CharRecord := {
  id : Z;
  char : jsstring;
  codePoint : jsstring;
  utf8 : Utf8View;
  sjis : SjisView
}.

(** The two strings the simulator shows. *)
Record SimState := {
  utf8ToSjis : jsstring;
  sjisToUtf8 : jsstring
}.

(** '（変換エラー）' *)
Definition conversion_error : jsstring :=
  [0xFF08; 0x5909; 0x63DB; 0x30A8; 0x30E9; 0x30FC; 0xFF09].

(** '（Shift-JIS非対応）' *)
Definition sjis_unsupported : jsstring :=
  [0xFF08] ++ lit "Shift-JIS" ++ [0x975E; 0x5BFE; 0x5FDC; 0xFF09].

Definition toHexString (byteArray : option (list Z)) : jsstring :=
  match byteArray with
  | None => lit ""
  | Some arr => join (lit " ") (map hex_of_byte arr)
  end.

Definition toBinaryString (byteArray : option (list Z)) : jsstring :=
  match byteArray with
  | None => lit ""
  | Some arr => join (lit " ") (map binary_of_byte arr)
  end.

(** [a || []] on an array or [null]. *)
Definition or_empty (a : option (list Z)) : list Z :=
  match a with
  | Some arr => arr
  | None => []
  end.

Section WithCodec.

(** [window.Encoding]; [None] when the library is not loaded. *)
Variable window_Encoding : option EncodingLib.

(** The body of the [try] block of [toSJISArray]. The result of the reverse
    conversion is compared with [str], and both branches return the array. *)
Definition toSJISArray_try (EncodingLib : EncodingLib) (str : jsstring)
  : completion (option (list Z)) :=
  unicodeArray <- stringToCode EncodingLib str ;;
  sjisArray <- convert_array EncodingLib unicodeArray SJIS UNICODE ;;
  reversed <- convert_string EncodingLib sjisArray UNICODE SJIS ;;
  if negb (jsstring_eqb reversed str)
  then Normal (Some sjisArray)
  else Normal (Some sjisArray).

Definition toSJISArray (str : jsstring) : completion (option (list Z)) :=
  match window_Encoding with
  | None => Normal None
  | Some EncodingLib =>
      try_catch (toSJISArray_try EncodingLib str) (Normal None)
  end.

(** [sjis && !(sjis.length === 1 && sjis[0] === 0x3F && char !== '?')] *)
Definition isSjisValid_of (sjis : option (list Z)) (char : jsstring) : flag :=
  match sjis with
  | None => FNull
  | Some arr =>
      FBool (negb ((Z.of_nat (length arr) =? 1)
                   && match nth_error arr 0 with
                      | Some b => b =? 0x3F
                      | None => false
                      end
                   && negb (jsstring_eqb char (lit "?"))))
  end.

(** The callback of [chars.map] in [analyzeText]. *)
Definition analyzeChar (char : jsstring) (index : Z) : completion CharRecord :=
  let utf8 := toUTF8Array char in
  sjis <- toSJISArray char ;;
  let isSjisValid := isSjisValid_of sjis char in
  label <- codePoint_of char ;;
  Normal {|
    id := index;
    char := char;
    codePoint := label;
    utf8 := {|
      utf8_bytes := utf8;
      utf8_length := Z.of_nat (length utf8);
      utf8_hex := toHexString (Some utf8);
      utf8_binary := toBinaryString (Some utf8)
    |};
    sjis := {|
      sjis_bytes := or_empty sjis;
      sjis_length := if truthy isSjisValid
                     then Z.of_nat (length (or_empty sjis)) else 0;
      sjis_hex := toHexString (Some (or_empty sjis));
      sjis_binary := toBinaryString (Some (or_empty sjis));
      sjis_isValid := isSjisValid
    |}
  |}.

Definition analyzeText (text : jsstring) : completion (list CharRecord) :=
  match text with
  | [] => Normal []
  | _ :: _ =>
      let chars := Array_from text in
      map_indexed analyzeChar 0 chars
  end.

(** The effect of [MojibakeSimulator], run on [input] from the state [st]:
    the two setters write the fields of the state. *)
Definition simulate (input : jsstring) (st : SimState) : completion SimState :=
  match input, window_Encoding with
  | [], _ => Normal st
  | _ :: _, None => Normal st
  | _ :: _, Some EncodingLib =>
      let utf8Bytes := toUTF8Array input in
      st1 <- try_catch
               (garbled <- convert_string EncodingLib utf8Bytes UNICODE SJIS ;;
                Normal {| utf8ToSjis := garbled; sjisToUtf8 := sjisToUtf8 st |})
               (Normal {| utf8ToSjis := conversion_error;
                          sjisToUtf8 := sjisToUtf8 st |}) ;;
      sjisBytes <- toSJISArray input ;;
      match sjisBytes with
      | Some (b :: bs) =>
          try_catch
            (garbled <- convert_string EncodingLib (b :: bs) UNICODE UTF8 ;;
             Normal {| utf8ToSjis := utf8ToSjis st1; sjisToUtf8 := garbled |})
            (Normal {| utf8ToSjis := utf8ToSjis st1;
                       sjisToUtf8 := conversion_error |})
      | _ =>
          Normal {| utf8ToSjis := utf8ToSjis st1;
                    sjisToUtf8 := sjis_unsupported |}
      end
  end.

(** The state of a freshly mounted simulator: [useState('')] twice. *)
Definition initial_state : SimState :=
  {| utf8ToSjis := lit ""; sjisToUtf8 := lit "" |}.

End WithCodec.

(** The aggregates of [ConverterView] over its [analysis] state. *)
Definition totalUtf8 (analysis : list CharRecord) : Z :=
  fold_left (fun acc item => acc + utf8_length (utf8 item)) analysis 0.

Definition totalSjis (analysis : list CharRecord) : Z :=
  fold_left (fun acc item => acc + sjis_length (sjis item)) analysis 0.

Definition canFullSjis (analysis : list CharRecord) : bool :=
  forallb (fun item => truthy (sjis_isValid (sjis item))) analysis.

End Inlined.

(* ================================================================== *)
(** * src/utils/encoding.js: the stand-alone module *)
(* ================================================================== *)

Module UtilsEncoding.

Record ByteView := {
  bytes : list Z;
  hex : jsstring;
  binary : jsstring
}.

Record CharRecord := {
  char : jsstring;
  codePoint : jsstring;
  utf8 : ByteView;
  sjis : ByteView
}.

Definition toHexString (byteArray : list Z) : jsstring :=
  join (lit " ") (map hex_of_byte byteArray).

Definition toBinaryString (byteArray : list Z) : jsstring :=
  join (lit " ") (map binary_of_byte byteArray).

Section WithCodec.

Variable window_Encoding : option EncodingLib.

(** No [try] here: what the library throws leaves the function. *)
Definition toSJISArray (str : jsstring) : completion (list Z) :=
  match window_Encoding with
  | None => Normal []
  | Some Encoding =>
      unicodeArray <- stringToCode Encoding str ;;
      sjisArray <- convert_untyped Encoding unicodeArray SJIS UNICODE ;;
      Normal sjisArray
  end.

Definition analyzeChar (char : jsstring) (index : Z) : completion CharRecord :=
  let utf8 := toUTF8Array char in
  sjis <- toSJISArray char ;;
  label <- codePoint_of char ;;
  Normal {|
    char := char;
    codePoint := label;
    utf8 := {| bytes := utf8;
               hex := toHexString utf8;
               binary := toBinaryString utf8 |};
    sjis := {| bytes := sjis;
               hex := toHexString sjis;
               binary := toBinaryString sjis |}
  |}.

Definition analyzeText (text : jsstring) : completion (list CharRecord) :=
  match text with
  | [] => Normal []
  | _ :: _ =>
      let chars := Array_from text in
      map_indexed analyzeChar 0 chars
  end.

End WithCodec.

End UtilsEncoding.

(* ================================================================== *)
(** * A sample codec, for concrete runs *)
(* ================================================================== *)

(** A small table-driven codec in the style of the library: ASCII maps to
    itself, U+3042 to 82 A0, U+00A5 to 5C (as JIS X 0201 does), and every
    other scalar value to the substitute byte 3F. [stringToCode] throws on a
    string with a lone surrogate, and the decoders are strict. *)
Module Sample.

Fixpoint well_formed (s : jsstring) : bool :=
  match s with
  | [] => true
  | u :: rest =>
      match rest with
      | v :: rest' =>
          if is_high_surrogate u && is_low_surrogate v
          then well_formed rest'
          else negb (is_surrogate u) && well_formed rest
      | [] => negb (is_surrogate u)
      end
  end.

Definition sjis_of_scalar (cp : Z) : list Z :=
  if cp <? 0x80 then [cp]
  else if cp =? 0xA5 then [0x5C]
  else if cp =? 0x3042 then [0x82; 0xA0]
  else [0x3F].

Fixpoint sjis_decode (bs : list Z) : completion jsstring :=
  match bs with
  | [] => Normal []
  | b :: rest =>
      if b <? 0x80 then (s <- sjis_decode rest ;; Normal (b :: s))
      else
        match rest with
        | t :: rest' =>
            if (b =? 0x82) && (t =? 0xA0)
            then (s <- sjis_decode rest' ;; Normal (0x3042 :: s))
            else Throw
        | [] => Throw
        end
  end.

Definition ascii_decode (bs : list Z) : completion jsstring :=
  if forallb (fun b => b <? 0x80) bs then Normal bs else Throw.

Definition to_array (data : list Z) (to from : encoding_name) : completion (list Z) :=
  match to, from with
  | SJIS, UNICODE => Normal (flat_map sjis_of_scalar (scalar_values data))
  | _, _ => Normal data
  end.

Definition to_string (data : list Z) (to from : encoding_name) : completion jsstring :=
  match to, from with
  | UNICODE, SJIS => sjis_decode data
  | UNICODE, UTF8 => ascii_decode data
  | _, _ => Normal data
  end.

Definition codec : EncodingLib := {|
  stringToCode := fun s => if well_formed s then Normal s else Throw;
  convert_array := to_array;
  convert_string := to_string;
  convert_untyped := to_array
|}.

End Sample.

(* ================================================================== *)
(** * Notions used to state the properties *)
(* ================================================================== *)

(** [arr.map] with a callback that does not throw. *)
Fixpoint map_pure {A B} (g : A -> Z -> B) (index : Z) (l : list A) : list B :=
  match l with
  | [] => []
  | x :: rest => g x index :: map_pure g (index + 1) rest
  end.

(** What [toSJISArray] of the entry file returns: it never throws. *)
Definition sjis_result (codec : option EncodingLib) (str : jsstring)
  : option (list Z) :=
  match codec with
  | None => None
  | Some lib =>
      match Inlined.toSJISArray_try lib str with
      | Normal r => r
      | Throw => None
      end
  end.

(** The record [Inlined.analyzeChar] builds for a character whose code
    point is [n] and whose legacy conversion gave [sjis]. *)
Definition inlined_record (char : jsstring) (index n : Z)
    (sjis : option (list Z)) : Inlined.CharRecord :=
  let utf8 := toUTF8Array char in
  let valid := Inlined.isSjisValid_of sjis char in
  {| Inlined.id := index;
     Inlined.char := char;
     Inlined.codePoint := codePoint_label n;
     Inlined.utf8 :=
       {| Inlined.utf8_bytes := utf8;
          Inlined.utf8_length := Z.of_nat (length utf8);
          Inlined.utf8_hex := Inlined.toHexString (Some utf8);
          Inlined.utf8_binary := Inlined.toBinaryString (Some utf8) |};
     Inlined.sjis :=
       {| Inlined.sjis_bytes := Inlined.or_empty sjis;
          Inlined.sjis_length :=
            if truthy valid then Z.of_nat (length (Inlined.or_empty sjis)) else 0;
          Inlined.sjis_hex := Inlined.toHexString (Some (Inlined.or_empty sjis));
          Inlined.sjis_binary := Inlined.toBinaryString (Some (Inlined.or_empty sjis));
          Inlined.sjis_isValid := valid |} |}.

(** The first code point of a string, 0 for the empty string. *)
Definition first_code_point (char : jsstring) : Z :=
  match codePointAt0 char with
  | Some n => n
  | None => 0
  end.

(** The records of the entry file's [analyzeText], in closed form. *)
Definition inlined_records (codec : option EncodingLib) (text : jsstring)
  : list Inlined.CharRecord :=
  map_pure (fun c i => inlined_record c i (first_code_point c) (sjis_result codec c))
           0 (Array_from text).

(** What [toSJISArray] of the module returns when it does not throw. *)
Definition utils_sjis_result (codec : option EncodingLib) (str : jsstring) : list Z :=
  match UtilsEncoding.toSJISArray codec str with
  | Normal bs => bs
  | Throw => []
  end.

(** The record [UtilsEncoding.analyzeChar] builds for a character whose
    code point is [n] and whose legacy conversion gave [sjis]. *)
Definition utils_record (char : jsstring) (n : Z) (sjis : list Z)
  : UtilsEncoding.CharRecord :=
  let utf8 := toUTF8Array char in
  {| UtilsEncoding.char := char;
     UtilsEncoding.codePoint := codePoint_label n;
     UtilsEncoding.utf8 :=
       {| UtilsEncoding.bytes := utf8;
          UtilsEncoding.hex := UtilsEncoding.toHexString utf8;
          UtilsEncoding.binary := UtilsEncoding.toBinaryString utf8 |};
     UtilsEncoding.sjis :=
       {| UtilsEncoding.bytes := sjis;
          UtilsEncoding.hex := UtilsEncoding.toHexString sjis;
          UtilsEncoding.binary := UtilsEncoding.toBinaryString sjis |} |}.

(** A record of the module and a record of the entry file agree on the
    character, the code point and the universal byte view. *)
Definition same_universal_fields
    (r1 : UtilsEncoding.CharRecord) (r2 : Inlined.CharRecord) : Prop :=
  UtilsEncoding.char r1 = Inlined.char r2
  /\ UtilsEncoding.codePoint r1 = Inlined.codePoint r2
  /\ UtilsEncoding.bytes (UtilsEncoding.utf8 r1) = Inlined.utf8_bytes (Inlined.utf8 r2)
  /\ UtilsEncoding.hex (UtilsEncoding.utf8 r1) = Inlined.utf8_hex (Inlined.utf8 r2)
  /\ UtilsEncoding.binary (UtilsEncoding.utf8 r1) = Inlined.utf8_binary (Inlined.utf8 r2).

(** A byte. *)
Definition is_byte (b : Z) : Prop := 0 <= b < 256.

(** All the bytes, in order. *)
Definition all_bytes : list Z := map Z.of_nat (seq 0 256).

(** The upper-case hexadecimal digit of a value below 16. *)
Definition upper_hex_digit (d : Z) : Z := if d <? 10 then 48 + d else 55 + d.

(** Two upper-case hexadecimal digits of a byte. *)
Definition two_hex_digits (b : Z) : jsstring :=
  [upper_hex_digit (b / 16); upper_hex_digit (b mod 16)].

(** The digit '0' or '1' of bit [i] of [b]. *)
Definition bit_char (b : Z) (i : Z) : Z := if Z.testbit b i then 49 else 48.

(** Eight binary digits of a byte, most significant first. *)
Definition eight_bits (b : Z) : jsstring :=
  map (bit_char b) [7; 6; 5; 4; 3; 2; 1; 0].

(** [s.split(sep)] on a one-unit separator: the empty string gives one
    empty group. *)
Fixpoint split_on (sep : Z) (s : jsstring) : list jsstring :=
  match s with
  | [] => [[]]
  | c :: rest =>
      if c =? sep then [] :: split_on sep rest
      else
        match split_on sep rest with
        | g :: gs => (c :: g) :: gs
        | [] => [[c]]
        end
  end.

(** The value of a digit character in 0-9, a-z, A-Z. *)
Definition digit_value (c : Z) : option Z :=
  if (48 <=? c) && (c <=? 57) then Some (c - 48)
  else if (97 <=? c) && (c <=? 122) then Some (c - 87)
  else if (65 <=? c) && (c <=? 90) then Some (c - 55)
  else None.

(** Reading a group of digits in base [radix]: every unit must be a digit
    below [radix], and the group must not be empty. *)
Fixpoint parse_from (radix acc : Z) (s : jsstring) : option Z :=
  match s with
  | [] => Some acc
  | c :: rest =>
      match digit_value c with
      | Some d => if d <? radix then parse_from radix (acc * radix + d) rest else None
      | None => None
      end
  end.

Definition parse_group (radix : Z) (s : jsstring) : option Z :=
  match s with
  | [] => None
  | _ :: _ => parse_from radix 0 s
  end.

Fixpoint parse_all (radix : Z) (groups : list jsstring) : option (list Z) :=
  match groups with
  | [] => Some []
  | g :: rest =>
      match parse_group radix g, parse_all radix rest with
      | Some b, Some bs => Some (b :: bs)
      | _, _ => None
      end
  end.

(** Comparing the result of a parse with a number. *)
Definition option_Z_eqb (a : option Z) (b : Z) : bool :=
  match a with
  | Some x => x =? b
  | None => false
  end.

(** An upper-case hexadecimal digit character: 0-9 or A-F. *)
Definition is_upper_hex_digit (c : Z) : bool :=
  ((48 <=? c) && (c <=? 57)) || ((65 <=? c) && (c <=? 70)).

(** Reading a rendering back: split on spaces and parse each group; the
    empty string is the rendering of no byte at all. *)
Definition reparse (radix : Z) (s : jsstring) : option (list Z) :=
  match s with
  | [] => Some []
  | _ :: _ => parse_all radix (split_on 32 s)
  end.

(** The sum of the lengths of the universal byte sequences. *)
Definition sum_utf8_lengths (rs : list Inlined.CharRecord) : Z :=
  fold_right (fun r acc => Z.of_nat (length (Inlined.utf8_bytes (Inlined.utf8 r))) + acc) 0 rs.

(* ================================================================== *)
(** * String built-ins used by the views *)
(* ================================================================== *)

(** The white space of [String.prototype.trim] and of [\s] in a regular
    expression: TAB, LF, VT, FF, CR, the space separators, the line and
    paragraph separators and U+FEFF. *)
Definition is_whitespace (u : Z) : bool :=
  ((9 <=? u) && (u <=? 13))
  || (u =? 0x20) || (u =? 0xA0) || (u =? 0x1680)
  || ((0x2000 <=? u) && (u <=? 0x200A))
  || (u =? 0x2028) || (u =? 0x2029) || (u =? 0x202F) || (u =? 0x205F)
  || (u =? 0x3000) || (u =? 0xFEFF).

Fixpoint trimStart (s : jsstring) : jsstring :=
  match s with
  | [] => []
  | c :: rest => if is_whitespace c then trimStart rest else s
  end.

Definition trimEnd (s : jsstring) : jsstring := rev (trimStart (rev s)).

(** [s.trim()] *)
Definition trim (s : jsstring) : jsstring := trimEnd (trimStart s).

(** [s.split(/\s+/)]: [in_run] tells that the unit before was white space.
    A run of white space separates two groups; the empty string gives one
    empty group. *)
Fixpoint split_whitespace_aux (in_run : bool) (s : jsstring) : list jsstring :=
  match s with
  | [] => [[]]
  | c :: rest =>
      if is_whitespace c then
        if in_run then split_whitespace_aux true rest
        else [] :: split_whitespace_aux true rest
      else
        match split_whitespace_aux false rest with
        | g :: gs => (c :: g) :: gs
        | [] => [[c]]
        end
  end.

Definition split_whitespace (s : jsstring) : list jsstring :=
  split_whitespace_aux false s.

(** [s.split('')]: one string per code unit. *)
Definition split_units (s : jsstring) : list jsstring := map (fun u => [u]) s.

(** [s.replace(/\s/g, '')] *)
Definition remove_whitespace (s : jsstring) : jsstring :=
  filter (fun u => negb (is_whitespace u)) s.

(** [arr[i]] for an integer [i]; [None] is [undefined]. *)
Definition array_get {A} (arr : list A) (i : Z) : option A :=
  if i <? 0 then None else nth_error arr (Z.to_nat i).

(** One box of a bit display: the text shown, and whether it has the
    style of a set bit ([bit === '1']). *)
Record BitCell := {
  cell_text : jsstring;
  cell_on : bool
}.

Definition bit_cell (bit : jsstring) : BitCell :=
  {| cell_text := bit; cell_on := jsstring_eqb bit (lit "1") |}.

(* ================================================================== *)
(** * src/unnamed/part_000: the bit display and the converter view *)
(* ================================================================== *)

Module InlinedView.

(** A line of the display: its number ([rowIdx + 1]) and its boxes. *)
Record BitRow := {
  row_number : Z;
  row_cells : list BitCell
}.

(** [BitVisualizer]; [None] is the [null] returned on an empty string. *)
Definition BitVisualizer (binaryString : jsstring) : option (list BitRow) :=
  match binaryString with
  | [] => None
  | _ :: _ =>
      let bytes := split_whitespace (trim binaryString) in
      Some (map_pure
              (fun byteStr rowIdx =>
                 {| row_number := rowIdx + 1;
                    row_cells := map bit_cell (split_units byteStr) |})
              0 bytes)
  end.

(** The state of [ConverterView] that its effect on [input] reads and
    writes. *)
Record ConverterState := {
  input : jsstring;
  analysis : list Inlined.CharRecord;
  selectedIndex : Z
}.

(** The effect run when [input] has changed: [st] holds the new input and
    the analysis and selection of the last render. *)
Definition input_effect (codec : option EncodingLib) (st : ConverterState)
  : completion ConverterState :=
  analysis' <- Inlined.analyzeText codec (input st) ;;
  let len := Z.of_nat (length (input st)) in
  Normal {|
    input := input st;
    analysis := analysis';
    selectedIndex :=
      if len =? 0 then -1
      else if selectedIndex st >=? len then 0
      else if (selectedIndex st =? -1) && (len >? 0) then 0
      else selectedIndex st
  |}.

(** [analysis[selectedIndex]] *)
Definition selectedCharData (st : ConverterState) : option Inlined.CharRecord :=
  array_get (analysis st) (selectedIndex st).

End InlinedView.

(* ================================================================== *)
(** * src/unnamed/part_002 and src/app.js: the flat bit display *)
(* ================================================================== *)

Module ComponentsUi.

(** [BitVisualizer]: the boxes, in order. *)
Definition BitVisualizer (binaryString : jsstring) : list BitCell :=
  let bits := split_units (remove_whitespace binaryString) in
  map bit_cell bits.

End ComponentsUi.

(* ================================================================== *)
(** * src/unnamed/part_001 and src/app.js: the quiz view *)
(* ================================================================== *)

Module QuizView.

Record Quiz := {
  question : jsstring;
  options : list jsstring;
  answer : jsstring;
  explanation : jsstring
}.

(** The state the answer buttons read and write; [None] is [null]. *)
Record QuizState := {
  quiz : option Quiz;
  selectedOption : option jsstring;
  showResult : bool
}.

(** After mounting, before the first quiz is loaded. *)
Definition initial_state : QuizState :=
  {| quiz := None; selectedOption := None; showResult := false |}.

Definition resetState (st : QuizState) : QuizState :=
  {| quiz := quiz st; selectedOption := None; showResult := false |}.

(** [setQuiz(q); resetState()], as [loadStaticQuiz] and the success branch
    of [loadAIQuiz] do. *)
Definition loadQuiz (q : Quiz) (st : QuizState) : QuizState :=
  resetState {| quiz := Some q;
                selectedOption := selectedOption st;
                showResult := showResult st |}.

Definition handleAnswer (option : jsstring) (st : QuizState) : QuizState :=
  {| quiz := quiz st; selectedOption := Some option; showResult := true |}.

(** [onClick={() => !showResult && handleAnswer(option)}] *)
Definition click (option : jsstring) (st : QuizState) : QuizState :=
  if showResult st then st else handleAnswer option st.

(** The five values of [stateClass]. *)
Inductive OptionStyle := Neutral | Correct | Wrong | Dimmed | Picked.

(** [option === selectedOption], false when nothing is selected. *)
Definition is_selected (st : QuizState) (option : jsstring) : bool :=
  match selectedOption st with
  | Some o => jsstring_eqb option o
  | None => false
  end.

Definition stateClass (st : QuizState) (q : Quiz) (option : jsstring) : OptionStyle :=
  if showResult st then
    if jsstring_eqb option (answer q) then Correct
    else if is_selected st option then Wrong
    else Dimmed
  else if is_selected st option then Picked
  else Neutral.

(** [selectedOption === quiz.answer], the test of the verdict line. *)
Definition verdict_correct (st : QuizState) (q : Quiz) : bool :=
  is_selected st (answer q).

(** The states the view can be in: a quiz is loaded, or a button of the
    quiz on display is clicked. *)
Inductive reachable : QuizState -> Prop :=
| reach_initial : reachable initial_state
| reach_load (q : Quiz) (st : QuizState) :
    reachable st -> reachable (loadQuiz q st)
| reach_click (q : Quiz) (option : jsstring) (st : QuizState) :
    reachable st -> quiz st = Some q -> In option (options q) ->
    reachable (click option st).

End QuizView.

(* ================================================================== *)
(** * Further notions used to state the properties *)
(* ================================================================== *)

(** A UTF-16 code unit. *)
Definition is_code_unit (u : Z) : Prop := 0 <= u <= 0xFFFF.

(** A string that is a single surrogate code unit. *)
Definition is_lone_surrogate (c : jsstring) : bool :=
  match c with
  | [u] => is_surrogate u
  | _ => false
  end.

(** The sum of the lengths of the legacy byte sequences of the records
    whose [isValid] is truthy. *)
Definition sum_valid_sjis_lengths (rs : list Inlined.CharRecord) : Z :=
  fold_right
    (fun r acc =>
       (if truthy (Inlined.sjis_isValid (Inlined.sjis r))
        then Z.of_nat (length (Inlined.sjis_bytes (Inlined.sjis r))) else 0) + acc)
    0 rs.

(** The sum of the lengths of all the legacy byte sequences. *)
Definition sum_sjis_lengths (rs : list Inlined.CharRecord) : Z :=
  fold_right
    (fun r acc => Z.of_nat (length (Inlined.sjis_bytes (Inlined.sjis r))) + acc) 0 rs.

(** A record of the entry file under one codec and under another agree on
    everything but the legacy view. *)
Definition same_but_legacy (r1 r2 : Inlined.CharRecord) : Prop :=
  Inlined.id r1 = Inlined.id r2
  /\ Inlined.char r1 = Inlined.char r2
  /\ Inlined.codePoint r1 = Inlined.codePoint r2
  /\ Inlined.utf8 r1 = Inlined.utf8 r2.

(** The eight boxes of byte [b]: most significant bit first, a box on
    exactly when its bit is set. *)
Definition byte_cells (b : Z) : list BitCell :=
  map (fun k => {| cell_text := [bit_char b k]; cell_on := Z.testbit b k |})
      [7; 6; 5; 4; 3; 2; 1; 0].

(** The line of the bit display for byte [b] at index [i]. *)
Definition byte_row (b i : Z) : InlinedView.BitRow :=
  {| InlinedView.row_number := i + 1;
     InlinedView.row_cells := byte_cells b |}.

(** A group of a rendering: not empty, and free of white space. *)
Definition clean_group (g : jsstring) : Prop :=
  g <> [] /\ forallb (fun u => negb (is_whitespace u)) g = true.

(* ================================================================== *)
(** * Concrete runs *)
(* ================================================================== *)

Example Array_from_emoji :
  Array_from ([0x41; 0xD83D; 0xDE80; 0x42]) = [[0x41]; [0xD83D; 0xDE80]; [0x42]].
Proof. reflexivity. Qed.

Example toUTF8Array_hiragana : toUTF8Array [0x3042] = [0xE3; 0x81; 0x82].
Proof. reflexivity. Qed.

Example toUTF8Array_rocket :
  toUTF8Array [0xD83D; 0xDE80] = [0xF0; 0x9F; 0x9A; 0x80].
Proof. reflexivity. Qed.

Example toHexString_doc :
  UtilsEncoding.toHexString [227; 129; 130] = lit "E3 81 82".
Proof. reflexivity. Qed.

Example toBinaryString_doc :
  UtilsEncoding.toBinaryString [65] = lit "01000001".
Proof. reflexivity. Qed.

Example codePoint_rocket :
  codePoint_of [0xD83D; 0xDE80] = Normal (lit "U+1F680").
Proof. reflexivity. Qed.

Example sample_rocket :
  Inlined.toSJISArray (Some Sample.codec) [0xD83D; 0xDE80] = Normal (Some [0x3F]).
Proof. reflexivity. Qed.

(* ================================================================== *)
(** * Segmentation *)
(* ================================================================== *)

(** Induction two units at a time, as [Array_from] recurses. *)
Lemma list_pair_ind (A : Type) (P : list A -> Prop) :
  P [] ->
  (forall u, P [u]) ->
  (forall u v rest, P rest -> P (v :: rest) -> P (u :: v :: rest)) ->
  forall l, P l.
Proof.
  intros H0 H1 H2 l.
  assert (H : P l /\ forall u, P (u :: l)).
  { induction l as [|v rest [IHa IHb]].
    - split; [exact H0 | exact H1].
    - split; [apply IHb | intros u; apply H2; [exact IHa | apply IHb]]. }
  exact (proj1 H).
Qed.

(** One step of the string iterator. *)
Lemma Array_from_step (u v : Z) (rest : jsstring) :
  Array_from (u :: v :: rest) =
  if is_high_surrogate u && is_low_surrogate v
  then [u; v] :: Array_from rest
  else [u] :: Array_from (v :: rest).
Proof. reflexivity. Qed.

Lemma Array_from_concat (s : jsstring) : concat (Array_from s) = s.
Proof.
  induction s as [|u|u v rest IH1 IH2] using list_pair_ind; try reflexivity.
  rewrite Array_from_step.
  destruct (is_high_surrogate u && is_low_surrogate v).
  - cbn [concat app]. now rewrite IH1.
  - cbn [concat app]. now rewrite IH2.
Qed.

Lemma Array_from_nonempty (s c : jsstring) : In c (Array_from s) -> c <> [].
Proof.
  induction s as [|u|u v rest IH1 IH2] using list_pair_ind.
  - intros [].
  - intros [<-|[]]; discriminate.
  - rewrite Array_from_step.
    destruct (is_high_surrogate u && is_low_surrogate v);
      (intros [<-|Hin]; [discriminate | auto]).
Qed.

Lemma not_surrogate_not_high (u : Z) :
  is_surrogate u = false -> is_high_surrogate u = false.
Proof. unfold is_surrogate, is_high_surrogate. lia. Qed.

(** Without surrogates every code unit is an element of its own. *)
Lemma Array_from_no_surrogate (s : jsstring) :
  Forall (fun u => is_surrogate u = false) s ->
  Array_from s = map (fun u => [u]) s.
Proof.
  induction s as [|u|u v rest IH1 IH2] using list_pair_ind; intros H.
  - reflexivity.
  - reflexivity.
  - rewrite Array_from_step.
    inversion H as [|? ? Hu Hrest]; subst.
    rewrite (not_surrogate_not_high u Hu). cbn [andb].
    rewrite (IH2 Hrest). reflexivity.
Qed.

(* ================================================================== *)
(** * The analysis never throws *)
(* ================================================================== *)

Lemma codePoint_of_nonempty (c : jsstring) :
  c <> [] -> codePoint_of c = Normal (codePoint_label (first_code_point c)).
Proof.
  destruct c as [|u [|v rest]]; [congruence | reflexivity |].
  intros _. unfold codePoint_of, first_code_point, codePointAt0.
  destruct (is_high_surrogate u && is_low_surrogate v); reflexivity.
Qed.

Lemma toSJISArray_returns (codec : option EncodingLib) (str : jsstring) :
  Inlined.toSJISArray codec str = Normal (sjis_result codec str).
Proof.
  unfold Inlined.toSJISArray, sjis_result.
  destruct codec as [lib|]; [|reflexivity].
  destruct (Inlined.toSJISArray_try lib str); reflexivity.
Qed.

Lemma analyzeChar_returns (codec : option EncodingLib) (c : jsstring) (i : Z) :
  c <> [] ->
  Inlined.analyzeChar codec c i =
  Normal (inlined_record c i (first_code_point c) (sjis_result codec c)).
Proof.
  intros Hc. unfold Inlined.analyzeChar.
  rewrite toSJISArray_returns, (codePoint_of_nonempty c Hc). reflexivity.
Qed.

Lemma map_indexed_pure {A B} (f : A -> Z -> completion B) (g : A -> Z -> B)
    (l : list A) :
  (forall x i, In x l -> f x i = Normal (g x i)) ->
  forall i, map_indexed f i l = Normal (map_pure g i l).
Proof.
  induction l as [|x rest IH]; intros H i; [reflexivity|].
  cbn [map_indexed map_pure].
  rewrite (H x i (or_introl eq_refl)). cbn [bind].
  rewrite IH by (intros; apply H; now right). reflexivity.
Qed.

Lemma map_pure_nth {A B} (g : A -> Z -> B) (l : list A) :
  forall i j,
    nth_error (map_pure g i l) j =
    option_map (fun x => g x (i + Z.of_nat j)) (nth_error l j).
Proof.
  induction l as [|x rest IH]; intros i j.
  - destruct j; reflexivity.
  - destruct j as [|j].
    + cbn. now rewrite Z.add_0_r.
    + cbn [map_pure nth_error]. rewrite IH.
      destruct (nth_error rest j); cbn [option_map]; [|reflexivity].
      do 2 f_equal. lia.
Qed.

Lemma map_pure_map {A B C} (g : A -> Z -> B) (h : B -> C) (k : A -> C) (l : list A) :
  (forall x i, h (g x i) = k x) ->
  forall i, map h (map_pure g i l) = map k l.
Proof.
  intros H. induction l as [|x rest IH]; intros i; [reflexivity|].
  cbn [map_pure map]. now rewrite H, IH.
Qed.

Lemma map_pure_length {A B} (g : A -> Z -> B) (l : list A) :
  forall i, length (map_pure g i l) = length l.
Proof.
  induction l as [|x rest IH]; intros i; [reflexivity|].
  cbn [map_pure length]. now rewrite IH.
Qed.

Lemma analyzeText_returns (codec : option EncodingLib) (text : jsstring) :
  Inlined.analyzeText codec text = Normal (inlined_records codec text).
Proof.
  unfold Inlined.analyzeText, inlined_records.
  destruct text as [|u rest]; [reflexivity|].
  apply map_indexed_pure. intros c i Hin.
  apply analyzeChar_returns. exact (Array_from_nonempty _ _ Hin).
Qed.

Lemma inlined_records_chars (codec : option EncodingLib) (text : jsstring) :
  map Inlined.char (inlined_records codec text) = Array_from text.
Proof.
  unfold inlined_records.
  rewrite (map_pure_map _ Inlined.char (fun c => c)) by reflexivity.
  apply map_id.
Qed.

Lemma map_pure_Forall {A B} (g : A -> Z -> B) (P : B -> Prop) (l : list A) :
  (forall x i, P (g x i)) -> forall i, Forall P (map_pure g i l).
Proof.
  intros H. induction l as [|x rest IH]; intros i; constructor; auto.
Qed.

Lemma inlined_records_nth (codec : option EncodingLib) (text : jsstring) (j : nat) :
  nth_error (inlined_records codec text) j =
  option_map (fun c => inlined_record c (Z.of_nat j) (first_code_point c)
                                      (sjis_result codec c))
             (nth_error (Array_from text) j).
Proof. unfold inlined_records. now rewrite map_pure_nth. Qed.

Lemma high_not_low (u : Z) :
  is_high_surrogate u = true -> is_low_surrogate u = false.
Proof. unfold is_high_surrogate, is_low_surrogate. lia. Qed.

Lemma not_surrogate_not_low (u : Z) :
  is_surrogate u = false -> is_low_surrogate u = false.
Proof. unfold is_surrogate, is_low_surrogate. lia. Qed.

(** A code unit outside the surrogate range starts an element and ends it. *)
Lemma Array_from_unit_head (u : Z) (post : jsstring) :
  is_surrogate u = false -> Array_from (u :: post) = [u] :: Array_from post.
Proof.
  intros Hu. destruct post as [|v post]; [reflexivity|].
  rewrite Array_from_step, (not_surrogate_not_high u Hu). reflexivity.
Qed.

Lemma Array_from_pair_head (hi lo : Z) (post : jsstring) :
  is_high_surrogate hi = true -> is_low_surrogate lo = true ->
  Array_from (hi :: lo :: post) = [hi; lo] :: Array_from post.
Proof. intros Hhi Hlo. now rewrite Array_from_step, Hhi, Hlo. Qed.

(** Wherever it stands, a code unit outside the surrogate range is an
    element of its own: what comes before and after is segmented apart. *)
Lemma Array_from_app_unit (u : Z) (pre post : jsstring) :
  is_surrogate u = false ->
  Array_from (pre ++ u :: post) = Array_from pre ++ [u] :: Array_from post.
Proof.
  intros Hu. induction pre as [|w|w v rest IH1 IH2] using list_pair_ind.
  - now apply Array_from_unit_head.
  - cbn [app]. rewrite Array_from_step, (not_surrogate_not_low u Hu), andb_false_r.
    now rewrite Array_from_unit_head.
  - cbn [app]. rewrite !Array_from_step.
    destruct (is_high_surrogate w && is_low_surrogate v).
    + now rewrite IH1.
    + cbn [app] in IH2. now rewrite IH2.
Qed.

(** Wherever it stands, a surrogate pair is one element. *)
Lemma Array_from_app_pair (hi lo : Z) (pre post : jsstring) :
  is_high_surrogate hi = true -> is_low_surrogate lo = true ->
  Array_from (pre ++ hi :: lo :: post)
  = Array_from pre ++ [hi; lo] :: Array_from post.
Proof.
  intros Hhi Hlo. induction pre as [|w|w v rest IH1 IH2] using list_pair_ind.
  - now apply Array_from_pair_head.
  - cbn [app]. rewrite Array_from_step, (high_not_low hi Hhi), andb_false_r.
    now rewrite Array_from_pair_head.
  - cbn [app]. rewrite !Array_from_step.
    destruct (is_high_surrogate w && is_low_surrogate v).
    + now rewrite IH1.
    + cbn [app] in IH2. now rewrite IH2.
Qed.

Lemma map_pure_app {A B} (g : A -> Z -> B) (l1 l2 : list A) :
  forall i,
    map_pure g i (l1 ++ l2)
    = map_pure g i l1 ++ map_pure g (i + Z.of_nat (length l1)) l2.
Proof.
  induction l1 as [|x rest IH]; intros i.
  - cbn. now rewrite Z.add_0_r.
  - cbn [app map_pure length]. rewrite IH. do 3 f_equal. lia.
Qed.

(** The records around one element of the segmentation. *)
Lemma records_around (codec : option EncodingLib)
    (text pre e post : jsstring) :
  Array_from text = Array_from pre ++ e :: Array_from post ->
  exists rs_pre r rs_post,
    Inlined.analyzeText codec text = Normal (rs_pre ++ r :: rs_post)
    /\ concat (map Inlined.char rs_pre) = pre
    /\ Inlined.char r = e
    /\ concat (map Inlined.char rs_post) = post.
Proof.
  intros Hseg. rewrite analyzeText_returns. unfold inlined_records.
  rewrite Hseg, map_pure_app. cbn [map_pure].
  do 3 eexists. split; [reflexivity|].
  split; [|split; [reflexivity|]].
  - rewrite (map_pure_map _ Inlined.char (fun c => c)) by reflexivity.
    rewrite map_id. apply Array_from_concat.
  - rewrite (map_pure_map _ Inlined.char (fun c => c)) by reflexivity.
    rewrite map_id. apply Array_from_concat.
Qed.

(** C4: the analysis returns for every input, the empty one included; the
    characters of its records, concatenated in order, are the input; and a
    surrogate pair (an emoji) is one record, alone or anywhere in a longer
    input: the records before it spell what comes before it, the records
    after it what comes after. *)
Theorem analyzeText_total_and_segmenting
    (codec : option EncodingLib) (text pre post : jsstring) (hi lo : Z)
    (Hhi : is_high_surrogate hi = true) (Hlo : is_low_surrogate lo = true) :
  (exists rs, Inlined.analyzeText codec text = Normal rs
              /\ concat (map Inlined.char rs) = text)
  /\ Inlined.analyzeText codec [] = Normal []
  /\ (exists r, Inlined.analyzeText codec [hi; lo] = Normal [r]
                /\ Inlined.char r = [hi; lo])
  /\ (exists rs_pre r rs_post,
         Inlined.analyzeText codec (pre ++ hi :: lo :: post)
         = Normal (rs_pre ++ r :: rs_post)
         /\ concat (map Inlined.char rs_pre) = pre
         /\ Inlined.char r = [hi; lo]
         /\ concat (map Inlined.char rs_post) = post).
Proof.
  split; [|split; [|split]].
  - exists (inlined_records codec text). split.
    + apply analyzeText_returns.
    + rewrite inlined_records_chars. apply Array_from_concat.
  - reflexivity.
  - rewrite analyzeText_returns. unfold inlined_records.
    cbn [Array_from]. rewrite Hhi, Hlo. cbn [andb map_pure].
    eexists. split; reflexivity.
  - apply records_around. now apply Array_from_app_pair.
Qed.

Lemma analyzeText_total_and_segmenting_witness :
  (exists rs, Inlined.analyzeText (Some Sample.codec) [0x41; 0xD83D; 0xDE80] = Normal rs
              /\ concat (map Inlined.char rs) = [0x41; 0xD83D; 0xDE80])
  /\ Inlined.analyzeText (Some Sample.codec) [] = Normal []
  /\ (exists r, Inlined.analyzeText (Some Sample.codec) [0xD83D; 0xDE80] = Normal [r]
                /\ Inlined.char r = [0xD83D; 0xDE80])
  /\ (exists rs_pre r rs_post,
         Inlined.analyzeText (Some Sample.codec)
           ([0x41; 0x3042] ++ 0xD83D :: 0xDE80 :: [0x42])
         = Normal (rs_pre ++ r :: rs_post)
         /\ concat (map Inlined.char rs_pre) = [0x41; 0x3042]
         /\ Inlined.char r = [0xD83D; 0xDE80]
         /\ concat (map Inlined.char rs_post) = [0x42]).
Proof.
  apply (analyzeText_total_and_segmenting (Some Sample.codec)
           [0x41; 0xD83D; 0xDE80] [0x41; 0x3042] [0x42] 0xD83D 0xDE80);
    reflexivity.
Defined.

(** C2, as stated, fails: a base letter followed by a combining acute
    accent (U+0065 U+0301, one user-perceived character) gives two records,
    one per code point. *)
Lemma combining_sequence_is_split :
  exists r1 r2,
    Inlined.analyzeText (Some Sample.codec) [0x65; 0x301] = Normal [r1; r2]
    /\ Inlined.char r1 = [0x65] /\ Inlined.char r2 = [0x301].
Proof. do 2 eexists. repeat split. Qed.

(** C2, amended: the analysis segments by code point. A surrogate pair is
    kept as one record wherever it stands in the input; a code unit outside
    the surrogate range (a base letter, a combining mark) is a record of its
    own wherever it stands; so on an input without surrogate code units
    every code unit is a record of its own. *)
Theorem analyzeText_segments_by_code_point
    (codec : option EncodingLib) (text pre post : jsstring) (u hi lo : Z)
    (Hbmp : Forall (fun u => is_surrogate u = false) text)
    (Hu : is_surrogate u = false)
    (Hhi : is_high_surrogate hi = true) (Hlo : is_low_surrogate lo = true) :
  (exists rs, Inlined.analyzeText codec text = Normal rs
              /\ map Inlined.char rs = map (fun u => [u]) text
              /\ length rs = length text)
  /\ (exists rs_pre r rs_post,
         Inlined.analyzeText codec (pre ++ hi :: lo :: post)
         = Normal (rs_pre ++ r :: rs_post)
         /\ concat (map Inlined.char rs_pre) = pre
         /\ Inlined.char r = [hi; lo]
         /\ concat (map Inlined.char rs_post) = post)
  /\ (exists rs_pre r rs_post,
         Inlined.analyzeText codec (pre ++ u :: post)
         = Normal (rs_pre ++ r :: rs_post)
         /\ concat (map Inlined.char rs_pre) = pre
         /\ Inlined.char r = [u]
         /\ concat (map Inlined.char rs_post) = post).
Proof.
  split; [|split].
  - exists (inlined_records codec text). split; [apply analyzeText_returns|].
    split.
    + rewrite inlined_records_chars. now apply Array_from_no_surrogate.
    + unfold inlined_records. rewrite map_pure_length.
      rewrite (Array_from_no_surrogate text Hbmp). apply length_map.
  - apply records_around. now apply Array_from_app_pair.
  - apply records_around. now apply Array_from_app_unit.
Qed.

Lemma analyzeText_segments_by_code_point_witness :
  (exists rs, Inlined.analyzeText None [0x65; 0x301] = Normal rs
              /\ map Inlined.char rs = map (fun u => [u]) [0x65; 0x301]
              /\ length rs = length [0x65; 0x301])
  /\ (exists rs_pre r rs_post,
         Inlined.analyzeText None ([0x65; 0x301] ++ 0xD83D :: 0xDE80 :: [0x41])
         = Normal (rs_pre ++ r :: rs_post)
         /\ concat (map Inlined.char rs_pre) = [0x65; 0x301]
         /\ Inlined.char r = [0xD83D; 0xDE80]
         /\ concat (map Inlined.char rs_post) = [0x41])
  /\ (exists rs_pre r rs_post,
         Inlined.analyzeText None ([0x65; 0x301] ++ 0x301 :: [0x41])
         = Normal (rs_pre ++ r :: rs_post)
         /\ concat (map Inlined.char rs_pre) = [0x65; 0x301]
         /\ Inlined.char r = [0x301]
         /\ concat (map Inlined.char rs_post) = [0x41]).
Proof.
  apply (analyzeText_segments_by_code_point None
           [0x65; 0x301] [0x65; 0x301] [0x41] 0x301 0xD83D 0xDE80).
  - repeat constructor.
  - reflexivity.
  - reflexivity.
  - reflexivity.
Defined.

(* ================================================================== *)
(** * Failures of the legacy codec stay local *)
(* ================================================================== *)

Lemma sjis_result_failure (codec : option EncodingLib) (c : jsstring) :
  codec = None
  \/ (exists lib, codec = Some lib /\ Inlined.toSJISArray_try lib c = Throw) ->
  sjis_result codec c = None.
Proof.
  intros [->|(lib & -> & H)]; [reflexivity|].
  unfold sjis_result. now rewrite H.
Qed.

(** C3: when the codec is not loaded, or throws while character [c] (the
    [i]-th of the input) is converted, the analysis still returns; the record
    of [c] has a falsy [isValid], no legacy bytes and its utf8 fields; and
    every other record is the one any codec gives that converts that other
    character the same way. *)
Theorem legacy_failure_is_local
    (codec : option EncodingLib) (text : jsstring) (i : nat) (c : jsstring)
    (Hc : nth_error (Array_from text) i = Some c)
    (Hfail : codec = None
             \/ exists lib, codec = Some lib
                            /\ Inlined.toSJISArray_try lib c = Throw) :
  exists rs r,
    Inlined.analyzeText codec text = Normal rs
    /\ nth_error rs i = Some r
    /\ truthy (Inlined.sjis_isValid (Inlined.sjis r)) = false
    /\ Inlined.sjis_bytes (Inlined.sjis r) = []
    /\ Inlined.char r = c
    /\ Inlined.utf8_bytes (Inlined.utf8 r) = toUTF8Array c
    /\ Inlined.utf8_length (Inlined.utf8 r) = Z.of_nat (length (toUTF8Array c))
    /\ Inlined.utf8_hex (Inlined.utf8 r) = Inlined.toHexString (Some (toUTF8Array c))
    /\ Inlined.utf8_binary (Inlined.utf8 r) = Inlined.toBinaryString (Some (toUTF8Array c))
    /\ forall (codec' : option EncodingLib) (j : nat) (c' : jsstring),
         j <> i ->
         nth_error (Array_from text) j = Some c' ->
         Inlined.toSJISArray codec' c' = Inlined.toSJISArray codec c' ->
         exists rs', Inlined.analyzeText codec' text = Normal rs'
                     /\ nth_error rs' j = nth_error rs j.
Proof.
  exists (inlined_records codec text).
  exists (inlined_record c (Z.of_nat i) (first_code_point c) (sjis_result codec c)).
  split; [apply analyzeText_returns|].
  split; [rewrite inlined_records_nth, Hc; reflexivity|].
  rewrite (sjis_result_failure codec c Hfail).
  repeat (split; [reflexivity|]).
  intros codec' j c' _ Hj Hsame.
  exists (inlined_records codec' text). split; [apply analyzeText_returns|].
  rewrite !inlined_records_nth, Hj. cbn [option_map].
  rewrite !toSJISArray_returns in Hsame. injection Hsame as ->. reflexivity.
Qed.

Lemma legacy_failure_is_local_witness :
  exists rs r,
    Inlined.analyzeText (Some Sample.codec) [0x41; 0xD800; 0x3042] = Normal rs
    /\ nth_error rs 1 = Some r
    /\ truthy (Inlined.sjis_isValid (Inlined.sjis r)) = false
    /\ Inlined.sjis_bytes (Inlined.sjis r) = []
    /\ Inlined.char r = [0xD800]
    /\ Inlined.utf8_bytes (Inlined.utf8 r) = toUTF8Array [0xD800]
    /\ Inlined.utf8_length (Inlined.utf8 r) = Z.of_nat (length (toUTF8Array [0xD800]))
    /\ Inlined.utf8_hex (Inlined.utf8 r) = Inlined.toHexString (Some (toUTF8Array [0xD800]))
    /\ Inlined.utf8_binary (Inlined.utf8 r) = Inlined.toBinaryString (Some (toUTF8Array [0xD800]))
    /\ forall (codec' : option EncodingLib) (j : nat) (c' : jsstring),
         j <> 1%nat ->
         nth_error (Array_from [0x41; 0xD800; 0x3042]) j = Some c' ->
         Inlined.toSJISArray codec' c' = Inlined.toSJISArray (Some Sample.codec) c' ->
         exists rs', Inlined.analyzeText codec' [0x41; 0xD800; 0x3042] = Normal rs'
                     /\ nth_error rs' j = nth_error rs j.
Proof.
  apply (legacy_failure_is_local (Some Sample.codec) [0x41; 0xD800; 0x3042]
           1 [0xD800]).
  - reflexivity.
  - right. exists Sample.codec. split; reflexivity.
Defined.

(* ================================================================== *)
(** * Aggregates of the converter view *)
(* ================================================================== *)

Lemma fold_left_utf8_length (rs : list Inlined.CharRecord) :
  Forall (fun r => Inlined.utf8_length (Inlined.utf8 r)
                   = Z.of_nat (length (Inlined.utf8_bytes (Inlined.utf8 r)))) rs ->
  forall acc,
    fold_left (fun a item => a + Inlined.utf8_length (Inlined.utf8 item)) rs acc
    = acc + sum_utf8_lengths rs.
Proof.
  induction 1 as [|r rest Hr _ IH]; intros acc; cbn [fold_left sum_utf8_lengths fold_right].
  - lia.
  - rewrite IH, Hr. unfold sum_utf8_lengths. lia.
Qed.

Lemma canFullSjis_false (rs : list Inlined.CharRecord) :
  Inlined.canFullSjis rs = false
  <-> exists r, In r rs /\ truthy (Inlined.sjis_isValid (Inlined.sjis r)) = false.
Proof.
  unfold Inlined.canFullSjis. induction rs as [|r rest IH]; cbn [forallb].
  - split; [discriminate | intros (r & [] & _)].
  - rewrite andb_false_iff, IH. split.
    + intros [H|(r' & Hin & H)]; [exists r | exists r']; cbn [In]; auto.
    + intros (r' & [<-|Hin] & H); [now left | right; now exists r'].
Qed.

(** C6: over the records of any input, the total universal byte count is the
    sum of the lengths of the records' utf8 byte sequences, and the
    whole-string flag is false exactly when some record's [isValid] is
    falsy. *)
Theorem aggregate_consistency (codec : option EncodingLib) (text : jsstring) :
  exists rs,
    Inlined.analyzeText codec text = Normal rs
    /\ Inlined.totalUtf8 rs = sum_utf8_lengths rs
    /\ (Inlined.canFullSjis rs = false
        <-> exists r, In r rs
                      /\ truthy (Inlined.sjis_isValid (Inlined.sjis r)) = false).
Proof.
  exists (inlined_records codec text).
  split; [apply analyzeText_returns|]. split; [|apply canFullSjis_false].
  unfold Inlined.totalUtf8. rewrite fold_left_utf8_length; [lia|].
  apply map_pure_Forall. reflexivity.
Qed.

(* ================================================================== *)
(** * Byte formatting *)
(* ================================================================== *)

Lemma all_bytes_complete (b : Z) : is_byte b -> In b all_bytes.
Proof.
  intros Hb. unfold all_bytes, is_byte in *.
  rewrite <- (Z2Nat.id b) by lia.
  apply in_map, in_seq. lia.
Qed.

(** A boolean check that holds on the 256 bytes holds on every byte. *)
Lemma byte_cases (p : Z -> bool) :
  forallb p all_bytes = true -> forall b, is_byte b -> p b = true.
Proof.
  intros H b Hb. rewrite forallb_forall in H. apply H, all_bytes_complete, Hb.
Qed.

Lemma jsstring_eqb_eq (a b : jsstring) : jsstring_eqb a b = true <-> a = b.
Proof.
  unfold jsstring_eqb. destruct (list_eq_dec Z.eq_dec a b); split; congruence.
Qed.

Lemma hex_of_byte_digits (b : Z) : is_byte b -> hex_of_byte b = two_hex_digits b.
Proof.
  intros Hb. apply jsstring_eqb_eq.
  revert b Hb. apply byte_cases. vm_compute. reflexivity.
Qed.

Lemma binary_of_byte_bits (b : Z) : is_byte b -> binary_of_byte b = eight_bits b.
Proof.
  intros Hb. apply jsstring_eqb_eq.
  revert b Hb. apply byte_cases. vm_compute. reflexivity.
Qed.

Lemma option_Z_eqb_eq (a : option Z) (b : Z) : option_Z_eqb a b = true -> a = Some b.
Proof.
  destruct a as [x|]; cbn; [|discriminate].
  intros H. apply Z.eqb_eq in H. now subst.
Qed.

Lemma parse_two_hex_digits (b : Z) :
  is_byte b -> parse_group 16 (two_hex_digits b) = Some b.
Proof.
  intros Hb. apply option_Z_eqb_eq.
  revert b Hb. apply byte_cases. vm_compute. reflexivity.
Qed.

Lemma parse_eight_bits (b : Z) :
  is_byte b -> parse_group 2 (eight_bits b) = Some b.
Proof.
  intros Hb. apply option_Z_eqb_eq.
  revert b Hb. apply byte_cases. vm_compute. reflexivity.
Qed.

Lemma two_hex_digits_no_space (b : Z) :
  is_byte b -> forallb (fun c => negb (c =? 32)) (two_hex_digits b) = true.
Proof. revert b. apply byte_cases. vm_compute. reflexivity. Qed.

Lemma eight_bits_no_space (b : Z) :
  forallb (fun c => negb (c =? 32)) (eight_bits b) = true.
Proof.
  unfold eight_bits, bit_char. cbn [map forallb].
  repeat match goal with |- context [Z.testbit b ?i] => destruct (Z.testbit b i) end;
    reflexivity.
Qed.

Lemma split_on_group (g : jsstring) :
  forallb (fun c => negb (c =? 32)) g = true -> split_on 32 g = [g].
Proof.
  induction g as [|c g IH]; [reflexivity|].
  cbn [forallb split_on]. intros H. apply andb_true_iff in H as [Hc Hg].
  apply negb_true_iff in Hc. rewrite Hc, (IH Hg). reflexivity.
Qed.

Lemma split_on_app (g rest : jsstring) :
  forallb (fun c => negb (c =? 32)) g = true ->
  split_on 32 (g ++ 32 :: rest) = g :: split_on 32 rest.
Proof.
  induction g as [|c g IH]; [reflexivity|].
  cbn [forallb app split_on]. intros H. apply andb_true_iff in H as [Hc Hg].
  apply negb_true_iff in Hc. rewrite Hc, (IH Hg). reflexivity.
Qed.

(** Splitting a joined list of space-free groups gives the groups back. *)
Lemma split_on_join (gs : list jsstring) :
  gs <> [] ->
  Forall (fun g => forallb (fun c => negb (c =? 32)) g = true) gs ->
  split_on 32 (join (lit " ") gs) = gs.
Proof.
  induction gs as [|g [|g' rest] IH]; intros Hne H; [congruence| |].
  - inversion H; subst. now apply split_on_group.
  - inversion H as [|? ? Hg Hrest]; subst.
    change (join (lit " ") (g :: g' :: rest))
      with (g ++ 32 :: join (lit " ") (g' :: rest)).
    rewrite (split_on_app _ _ Hg), IH; [reflexivity | discriminate | exact Hrest].
Qed.

Lemma parse_all_map (radix : Z) (render : Z -> jsstring) (bs : list Z) :
  Forall (fun b => parse_group radix (render b) = Some b) bs ->
  parse_all radix (map render bs) = Some bs.
Proof.
  induction 1 as [|b rest Hb _ IH]; [reflexivity|].
  cbn [map parse_all]. now rewrite Hb, IH.
Qed.

Lemma join_nonempty (gs : list jsstring) :
  gs <> [] -> Forall (fun g => g <> []) gs -> join (lit " ") gs <> [].
Proof.
  destruct gs as [|g [|g' rest]]; intros Hne H; [congruence| |];
    inversion H; subst; destruct g; try congruence; discriminate.
Qed.

(** Reading back a rendering whose groups parse and hold no space. *)
Lemma reparse_join (radix : Z) (render : Z -> jsstring) (bs : list Z) :
  Forall (fun b => parse_group radix (render b) = Some b
                   /\ forallb (fun c => negb (c =? 32)) (render b) = true) bs ->
  reparse radix (join (lit " ") (map render bs)) = Some bs.
Proof.
  intros H. destruct bs as [|b rest]; [reflexivity|].
  assert (Hparse : Forall (fun b => parse_group radix (render b) = Some b) (b :: rest))
    by (eapply Forall_impl; [|exact H]; intros ? [? _]; assumption).
  assert (Hsp : Forall (fun g => forallb (fun c => negb (c =? 32)) g = true)
                       (map render (b :: rest)))
    by (apply Forall_map; eapply Forall_impl; [|exact H]; intros ? [_ ?]; assumption).
  assert (Hne : join (lit " ") (map render (b :: rest)) <> []).
  { apply join_nonempty; [discriminate|].
    apply Forall_map. eapply Forall_impl; [|exact Hparse].
    intros x Hx. cbv beta in Hx. destruct (render x); [cbn in Hx; discriminate Hx | discriminate]. }
  unfold reparse.
  destruct (join (lit " ") (map render (b :: rest))) eqn:E; [congruence|].
  rewrite <- E, split_on_join; [now apply parse_all_map | discriminate | exact Hsp].
Qed.

Lemma join_length (k : nat) (gs : list jsstring) :
  gs <> [] ->
  Forall (fun g => length g = k) gs ->
  (length (join (lit " ") gs) + 1 = (k + 1) * length gs)%nat.
Proof.
  induction gs as [|g [|g' rest] IH]; intros Hne H; [congruence| |].
  - inversion H; subst. cbn [join length]. lia.
  - inversion H as [|? ? Hg Hrest]; subst.
    change (join (lit " ") (g :: g' :: rest))
      with (g ++ 32 :: join (lit " ") (g' :: rest)).
    rewrite length_app. cbn [length] in *.
    specialize (IH ltac:(discriminate) Hrest). lia.
Qed.

Lemma map_ext_Forall {A B} (f g : A -> B) (l : list A) (P : A -> Prop) :
  (forall x, P x -> f x = g x) -> Forall P l -> map f l = map g l.
Proof.
  intros H. induction 1 as [|x rest Hx _ IH]; [reflexivity|].
  cbn [map]. now rewrite (H x Hx), IH.
Qed.

(** C5: on bytes, [toHexString] is the two upper-case hexadecimal digits of
    each byte and [toBinaryString] the eight binary digits of each byte,
    joined by single spaces; splitting either on spaces and parsing the
    groups gives the bytes back; the hexadecimal string of [n >= 1] bytes
    has [3n - 1] units; both give the empty string on no bytes. *)
Theorem formatting_round_trip (bs : list Z) (Hbytes : Forall is_byte bs) :
  Inlined.toHexString (Some bs) = join (lit " ") (map two_hex_digits bs)
  /\ Inlined.toBinaryString (Some bs) = join (lit " ") (map eight_bits bs)
  /\ reparse 16 (Inlined.toHexString (Some bs)) = Some bs
  /\ reparse 2 (Inlined.toBinaryString (Some bs)) = Some bs
  /\ (bs <> [] ->
      Z.of_nat (length (Inlined.toHexString (Some bs))) = 3 * Z.of_nat (length bs) - 1)
  /\ Inlined.toHexString (Some []) = lit ""
  /\ Inlined.toBinaryString (Some []) = lit "".
Proof.
  assert (Hhex : Inlined.toHexString (Some bs) = join (lit " ") (map two_hex_digits bs)).
  { unfold Inlined.toHexString. f_equal.
    apply (map_ext_Forall _ _ _ is_byte); [apply hex_of_byte_digits | exact Hbytes]. }
  assert (Hbin : Inlined.toBinaryString (Some bs) = join (lit " ") (map eight_bits bs)).
  { unfold Inlined.toBinaryString. f_equal.
    apply (map_ext_Forall _ _ _ is_byte); [apply binary_of_byte_bits | exact Hbytes]. }
  rewrite Hhex, Hbin. repeat split.
  - apply reparse_join. eapply Forall_impl; [|exact Hbytes].
    intros b Hb. split; [now apply parse_two_hex_digits | now apply two_hex_digits_no_space].
  - apply reparse_join. eapply Forall_impl; [|exact Hbytes].
    intros b Hb. split; [now apply parse_eight_bits | apply eight_bits_no_space].
  - intros Hne.
    pose proof (join_length 2 (map two_hex_digits bs)) as HL.
    rewrite length_map in HL.
    assert (Hm : map two_hex_digits bs <> []) by (destruct bs; [congruence | discriminate]).
    specialize (HL Hm). 
    assert (HF : Forall (fun g => length g = 2%nat) (map two_hex_digits bs))
      by (apply Forall_map, Forall_forall; reflexivity).
    specialize (HL HF). lia.
Qed.

Lemma formatting_round_trip_witness :
  Inlined.toHexString (Some [0xE3; 0x81; 0x82]) = lit "E3 81 82"
  /\ reparse 16 (lit "E3 81 82") = Some [0xE3; 0x81; 0x82]
  /\ Inlined.toBinaryString (Some [0xE3; 0x81; 0x82]) = lit "11100011 10000001 10000010"
  /\ Z.of_nat (length (lit "E3 81 82")) = 8.
Proof.
  assert (Hb : Forall is_byte [0xE3; 0x81; 0x82])
    by (repeat constructor; unfold is_byte; lia).
  destruct (formatting_round_trip [0xE3; 0x81; 0x82] Hb)
    as (H1 & H2 & H3 & _ & H5 & _).
  split; [exact H1|]. split; [exact H3|]. split; [exact H2|].
  apply H5. discriminate.
Defined.

(* ================================================================== *)
(** * The code point label *)
(* ================================================================== *)

Lemma digits_aux_app (fuel : nat) (radix : Z) :
  forall n acc, digits_aux fuel radix n acc = digits_aux fuel radix n [] ++ acc.
Proof.
  induction fuel as [|f IH]; intros n acc; [reflexivity|].
  cbn [digits_aux]. destruct (n <? radix); [reflexivity|].
  rewrite (IH _ (n mod radix :: acc)), (IH _ [n mod radix]), <- app_assoc.
  reflexivity.
Qed.

Lemma digits_aux_nonempty (fuel : nat) (radix n : Z) :
  digits_aux (S fuel) radix n [] <> [].
Proof.
  cbn [digits_aux]. destruct (n <? radix); [discriminate|].
  rewrite digits_aux_app. intros H. apply app_eq_nil in H as [_ H]. discriminate.
Qed.

Lemma digits_aux_range (fuel : nat) :
  forall n acc,
    0 <= n ->
    Forall (fun d => 0 <= d < 16) acc ->
    Forall (fun d => 0 <= d < 16) (digits_aux fuel 16 n acc).
Proof.
  induction fuel as [|f IH]; intros n acc Hn Hacc; [exact Hacc|].
  cbn [digits_aux].
  assert (Hd : 0 <= n mod 16 < 16) by (apply Z.mod_pos_bound; lia).
  destruct (n <? 16).
  - now constructor.
  - apply IH; [apply Z.div_pos; lia | now constructor].
Qed.

Lemma upper_of_digit_char (d : Z) :
  0 <= d < 16 -> upper_unit (digit_char d) = upper_hex_digit d.
Proof.
  intros Hd. unfold upper_unit, digit_char, upper_hex_digit.
  destruct (Z.ltb_spec d 10).
  - replace ((97 <=? 48 + d) && (48 + d <=? 122)) with false by lia. reflexivity.
  - replace ((97 <=? 87 + d) && (87 + d <=? 122)) with true by lia. lia.
Qed.

Lemma digit_value_upper_hex (d : Z) :
  0 <= d < 16 -> digit_value (upper_hex_digit d) = Some d.
Proof.
  intros Hd. unfold digit_value, upper_hex_digit.
  destruct (Z.ltb_spec d 10).
  - replace ((48 <=? 48 + d) && (48 + d <=? 57)) with true by lia.
    f_equal. lia.
  - replace ((48 <=? 55 + d) && (55 + d <=? 57)) with false by lia.
    replace ((97 <=? 55 + d) && (55 + d <=? 122)) with false by lia.
    replace ((65 <=? 55 + d) && (55 + d <=? 90)) with true by lia.
    f_equal. lia.
Qed.

Lemma upper_hex_digit_is_upper (d : Z) :
  0 <= d < 16 -> is_upper_hex_digit (upper_hex_digit d) = true.
Proof.
  intros Hd. unfold is_upper_hex_digit, upper_hex_digit.
  destruct (Z.ltb_spec d 10); lia.
Qed.

Lemma parse_from_step (a d : Z) (rest : jsstring) :
  0 <= d < 16 ->
  parse_from 16 a (upper_hex_digit d :: rest) = parse_from 16 (a * 16 + d) rest.
Proof.
  intros Hd. cbn [parse_from]. rewrite (digit_value_upper_hex d Hd).
  replace (d <? 16) with true by lia. reflexivity.
Qed.

(** Reading the digits of [n] from 0 is reading the rest from [n]. *)
Lemma parse_digits_aux (fuel : nat) :
  forall n acc,
    0 <= n < 16 ^ Z.of_nat fuel ->
    parse_from 16 0 (map upper_hex_digit (digits_aux fuel 16 n acc))
    = parse_from 16 n (map upper_hex_digit acc).
Proof.
  induction fuel as [|f IH]; intros n acc Hn.
  - cbn in Hn. replace n with 0 by lia. reflexivity.
  - cbn [digits_aux].
    assert (Hd : 0 <= n mod 16 < 16) by (apply Z.mod_pos_bound; lia).
    destruct (Z.ltb_spec n 16) as [Hlt|Hge].
    + cbn [map]. rewrite parse_from_step by exact Hd.
      rewrite Z.mod_small by lia. reflexivity.
    + rewrite IH.
      * cbn [map]. rewrite parse_from_step by exact Hd.
        f_equal. rewrite (Z.div_mod n 16) at 3 by lia. lia.
      * split; [apply Z.div_pos; lia|].
        apply Z.div_lt_upper_bound; [lia|].
        rewrite Nat2Z.inj_succ, Z.pow_succ_r in Hn by lia. lia.
Qed.

Lemma enough_fuel (n : Z) :
  0 <= n -> n < 16 ^ Z.of_nat (S (Z.to_nat (Z.log2 n))).
Proof.
  intros Hn. rewrite Nat2Z.inj_succ, Z2Nat.id by apply Z.log2_nonneg.
  destruct (Z.eq_dec n 0) as [->|Hnz].
  - cbn. lia.
  - pose proof (Z.log2_spec n ltac:(lia)) as [_ Hup].
    assert (2 ^ Z.succ (Z.log2 n) <= 16 ^ Z.succ (Z.log2 n)).
    { apply Z.pow_le_mono_l. lia. }
    lia.
Qed.

Lemma parse_leading_zeros (k : nat) (s : jsstring) :
  parse_from 16 0 (repeat 48 k ++ s) = parse_from 16 0 s.
Proof.
  induction k as [|k IH]; [reflexivity|].
  cbn [repeat app]. change 48 with (upper_hex_digit 0) at 1.
  rewrite parse_from_step by lia. exact IH.
Qed.

Lemma padStart_zero (target : nat) (s : jsstring) :
  padStart target (lit "0") s = repeat 48 (target - length s) ++ s.
Proof.
  unfold padStart. f_equal.
  generalize (target - length s)%nat as k. intros k.
  assert (H : forall m, concat (repeat (lit "0") m) = repeat 48 m).
  { induction m as [|m IH]; [reflexivity|]. cbn [repeat concat]. now rewrite IH. }
  rewrite H. rewrite <- (repeat_length 48 k) at 1. apply firstn_all.
Qed.

(** The shape of a code point label: "U+", then at least four upper-case
    hexadecimal digits that read back as the number. *)
Lemma codePoint_label_shape (n : Z) :
  0 <= n ->
  exists ds,
    codePoint_label n = lit "U+" ++ ds
    /\ (4 <= length ds)%nat
    /\ forallb is_upper_hex_digit ds = true
    /\ parse_group 16 ds = Some n.
Proof.
  intros Hn. unfold codePoint_label. eexists. split; [reflexivity|].
  rewrite padStart_zero.
  set (ds := digits 16 n).
  assert (Hrange : Forall (fun d => 0 <= d < 16) ds)
    by (apply digits_aux_range; [exact Hn | constructor]).
  assert (Hup : toUpperCase (Number_toString 16 n) = map upper_hex_digit ds).
  { unfold toUpperCase, Number_toString. fold ds. rewrite map_map.
    apply (map_ext_Forall _ _ _ (fun d => 0 <= d < 16)); [|exact Hrange].
    apply upper_of_digit_char. }
  rewrite Hup. split; [|split].
  - rewrite length_app, repeat_length. lia.
  - rewrite forallb_app. apply andb_true_iff. split.
    + apply forallb_forall. intros x Hx. apply repeat_spec in Hx. now subst.
    + apply forallb_forall. intros x Hx. apply in_map_iff in Hx as (d & <- & Hd).
      rewrite Forall_forall in Hrange. apply upper_hex_digit_is_upper, Hrange, Hd.
  - assert (Hne : map upper_hex_digit ds <> []).
    { intros H. apply map_eq_nil in H. revert H. apply digits_aux_nonempty. }
    unfold parse_group.
    destruct (repeat 48 (4 - length (map upper_hex_digit ds)) ++ map upper_hex_digit ds)
      eqn:E.
    + apply app_eq_nil in E as [_ E]. congruence.
    + rewrite <- E, parse_leading_zeros. unfold ds, digits.
      rewrite parse_digits_aux by (split; [exact Hn | now apply enough_fuel]).
      reflexivity.
Qed.

(* ================================================================== *)
(** * The fixture and the validity flag *)
(* ================================================================== *)

Lemma toSJISArray_try_value (lib : EncodingLib) (c u bs : list Z) (back : jsstring) :
  stringToCode lib c = Normal u ->
  convert_array lib u SJIS UNICODE = Normal bs ->
  convert_string lib bs UNICODE SJIS = Normal back ->
  Inlined.toSJISArray_try lib c = Normal (Some bs).
Proof.
  intros H1 H2 H3. unfold Inlined.toSJISArray_try.
  rewrite H1. cbn [bind]. rewrite H2. cbn [bind]. rewrite H3. cbn [bind].
  destruct (negb (jsstring_eqb back c)); reflexivity.
Qed.

Lemma records_have_labels (codec : option EncodingLib) (text : jsstring) :
  Forall (fun r => Inlined.codePoint r
                   = codePoint_label (first_code_point (Inlined.char r)))
         (inlined_records codec text).
Proof. apply map_pure_Forall. reflexivity. Qed.

(** C8: the analysis of U+3042 is one record with code point "U+3042" and
    utf8 hex "E3 81 82"; with a codec that converts it to 82 A0 the legacy
    hex is "82 A0" and [isValid] is true; without a codec [isValid] is falsy
    and the legacy bytes are empty. Every record's code point is the label
    of its character's first code point, and the label of a number is "U+"
    followed by at least four upper-case hexadecimal digits of that number. *)
Theorem hiragana_fixture
    (lib : EncodingLib) (u : list Z) (back : jsstring) (n : Z)
    (Hcode : stringToCode lib [0x3042] = Normal u)
    (Hsjis : convert_array lib u SJIS UNICODE = Normal [0x82; 0xA0])
    (Hback : convert_string lib [0x82; 0xA0] UNICODE SJIS = Normal back)
    (Hn : 0 <= n) :
  (exists r,
      Inlined.analyzeText (Some lib) [0x3042] = Normal [r]
      /\ Inlined.codePoint r = lit "U+3042"
      /\ Inlined.utf8_hex (Inlined.utf8 r) = lit "E3 81 82"
      /\ Inlined.sjis_hex (Inlined.sjis r) = lit "82 A0"
      /\ Inlined.sjis_isValid (Inlined.sjis r) = FBool true)
  /\ (exists r,
         Inlined.analyzeText None [0x3042] = Normal [r]
         /\ Inlined.codePoint r = lit "U+3042"
         /\ Inlined.utf8_hex (Inlined.utf8 r) = lit "E3 81 82"
         /\ truthy (Inlined.sjis_isValid (Inlined.sjis r)) = false
         /\ Inlined.sjis_bytes (Inlined.sjis r) = [])
  /\ (forall codec text,
         exists rs,
           Inlined.analyzeText codec text = Normal rs
           /\ Forall (fun r => Inlined.codePoint r
                               = codePoint_label (first_code_point (Inlined.char r))) rs)
  /\ (exists ds,
         codePoint_label n = lit "U+" ++ ds
         /\ (4 <= length ds)%nat
         /\ forallb is_upper_hex_digit ds = true
         /\ parse_group 16 ds = Some n).
Proof.
  split; [|split; [|split]].
  - rewrite analyzeText_returns. unfold inlined_records. cbn [Array_from map_pure].
    eexists. split; [reflexivity|].
    unfold inlined_record, sjis_result.
    rewrite (toSJISArray_try_value lib _ u [0x82; 0xA0] back Hcode Hsjis Hback).
    repeat split.
  - eexists. repeat split.
  - intros codec text. exists (inlined_records codec text).
    split; [apply analyzeText_returns | apply records_have_labels].
  - now apply codePoint_label_shape.
Qed.

Lemma hiragana_fixture_witness :
  (exists r,
      Inlined.analyzeText (Some Sample.codec) [0x3042] = Normal [r]
      /\ Inlined.codePoint r = lit "U+3042"
      /\ Inlined.utf8_hex (Inlined.utf8 r) = lit "E3 81 82"
      /\ Inlined.sjis_hex (Inlined.sjis r) = lit "82 A0"
      /\ Inlined.sjis_isValid (Inlined.sjis r) = FBool true)
  /\ (exists ds,
         codePoint_label 0x1F680 = lit "U+" ++ ds
         /\ (4 <= length ds)%nat
         /\ forallb is_upper_hex_digit ds = true
         /\ parse_group 16 ds = Some 0x1F680).
Proof.
  assert (Hn : 0 <= 0x1F680) by lia.
  destruct (hiragana_fixture Sample.codec [0x3042] [0x3042] 0x1F680
              eq_refl eq_refl eq_refl Hn) as (H1 & _ & _ & H4).
  exact (conj H1 H4).
Defined.

Lemma single_substitute_byte (bs : list Z) :
  (Z.of_nat (length bs) =? 1)
  && match nth_error bs 0 with
     | Some b => b =? 0x3F
     | None => false
     end = true
  <-> bs = [0x3F].
Proof.
  split.
  - destruct bs as [|b [|b' rest]]; cbn [nth_error]; intros H.
    + discriminate H.
    + apply andb_true_iff in H as [_ H]. apply Z.eqb_eq in H. now subst.
    + apply andb_true_iff in H as [H _]. apply Z.eqb_eq in H.
      cbn [length] in H. lia.
  - intros ->. reflexivity.
Qed.

(** C1, as stated, fails: the sample codec encodes U+00A5 to the byte 5C,
    which decodes to U+005C; the round trip does not give the character
    back, and [isValid] is true all the same. *)
Lemma roundtrip_is_not_consulted :
  ~ (forall (lib : EncodingLib) (c : jsstring) (bs : list Z) (back : jsstring)
            (i : Z) (r : Inlined.CharRecord),
        Inlined.toSJISArray (Some lib) c = Normal (Some bs) ->
        convert_string lib bs UNICODE SJIS = Normal back ->
        Inlined.analyzeChar (Some lib) c i = Normal r ->
        (truthy (Inlined.sjis_isValid (Inlined.sjis r)) = true <-> back = c)).
Proof.
  intros H.
  specialize (H Sample.codec [0xA5] [0x5C] [0x5C] 0 _ eq_refl eq_refl eq_refl).
  destruct H as [H _]. specialize (H eq_refl). discriminate H.
Qed.

(** C1, amended: for a character [c] that the codec encodes to [bs] (the
    conversion back not throwing), the record carries [bs] and [isValid] is
    true exactly when [bs] is not the single byte 3F or [c] is "?". What the
    conversion back gives plays no part. *)
Theorem validity_by_substitute_byte
    (lib : EncodingLib) (c : jsstring) (bs : list Z) (i : Z)
    (Hc : c <> [])
    (Henc : Inlined.toSJISArray (Some lib) c = Normal (Some bs)) :
  exists r,
    Inlined.analyzeChar (Some lib) c i = Normal r
    /\ Inlined.sjis_bytes (Inlined.sjis r) = bs
    /\ (truthy (Inlined.sjis_isValid (Inlined.sjis r)) = true
        <-> ~ (bs = [0x3F] /\ c <> lit "?")).
Proof.
  rewrite (analyzeChar_returns _ c i Hc).
  assert (Hs : sjis_result (Some lib) c = Some bs)
    by (rewrite toSJISArray_returns in Henc; congruence).
  rewrite Hs.
  eexists. split; [reflexivity|]. split; [reflexivity|].
  cbn [inlined_record Inlined.sjis Inlined.sjis_isValid
       Inlined.isSjisValid_of truthy].
  rewrite negb_true_iff, <- not_true_iff_false, andb_true_iff,
    single_substitute_byte, negb_true_iff, <- not_true_iff_false, jsstring_eqb_eq.
  reflexivity.
Qed.

Lemma validity_by_substitute_byte_witness :
  exists r,
    Inlined.analyzeChar (Some Sample.codec) [0xA5] 0 = Normal r
    /\ Inlined.sjis_bytes (Inlined.sjis r) = [0x5C]
    /\ (truthy (Inlined.sjis_isValid (Inlined.sjis r)) = true
        <-> ~ ([0x5C] = [0x3F] /\ [0xA5] <> lit "?")).
Proof.
  apply (validity_by_substitute_byte Sample.codec [0xA5] [0x5C] 0).
  - discriminate.
  - reflexivity.
Defined.

(** C7: with a codec that gives the substitute byte 3F for the emoji
    U+1F680, the record of that emoji has a non-empty legacy byte sequence
    and [isValid] false. *)
Theorem bytes_without_validity
    (lib : EncodingLib) (u : list Z) (back : jsstring)
    (Hcode : stringToCode lib [0xD83D; 0xDE80] = Normal u)
    (Hsjis : convert_array lib u SJIS UNICODE = Normal [0x3F])
    (Hback : convert_string lib [0x3F] UNICODE SJIS = Normal back) :
  exists c r,
    Inlined.analyzeText (Some lib) c = Normal [r]
    /\ Inlined.toSJISArray (Some lib) c = Normal (Some [0x3F])
    /\ Inlined.sjis_bytes (Inlined.sjis r) <> []
    /\ Inlined.sjis_isValid (Inlined.sjis r) = FBool false.
Proof.
  exists [0xD83D; 0xDE80]. 
  rewrite analyzeText_returns, toSJISArray_returns.
  unfold inlined_records. cbn [Array_from]. 
  replace (is_high_surrogate 55357 && is_low_surrogate 56960) with true by reflexivity.
  cbn [map_pure]. eexists. split; [reflexivity|].
  unfold inlined_record, sjis_result.
  rewrite (toSJISArray_try_value lib _ u [0x3F] back Hcode Hsjis Hback).
  repeat split. discriminate.
Qed.

Lemma bytes_without_validity_witness :
  exists c r,
    Inlined.analyzeText (Some Sample.codec) c = Normal [r]
    /\ Inlined.toSJISArray (Some Sample.codec) c = Normal (Some [0x3F])
    /\ Inlined.sjis_bytes (Inlined.sjis r) <> []
    /\ Inlined.sjis_isValid (Inlined.sjis r) = FBool false.
Proof.
  apply (bytes_without_validity Sample.codec [0xD83D; 0xDE80] [0x3F]);
    reflexivity.
Defined.

(* ================================================================== *)
(** * The garbling simulator *)
(* ================================================================== *)

(** C9, as stated, fails: without the codec the effect returns at once, and
    a freshly mounted simulator keeps showing two empty strings. *)
Lemma simulator_blank_without_codec :
  exists st,
    Inlined.simulate None (lit "A") Inlined.initial_state = Normal st
    /\ Inlined.utf8ToSjis st = lit ""
    /\ Inlined.sjisToUtf8 st = lit "".
Proof. eexists. repeat split. Qed.

(** C9, amended: on a non-empty input the effect never throws. Without the
    codec it leaves both outputs as they were. With the codec, a direction
    whose decoding throws shows the conversion-error string, and the second
    direction shows the not-supported string when no legacy bytes were
    produced. *)
Theorem simulate_failure_states
    (input : jsstring) (st : Inlined.SimState) (Hinput : input <> []) :
  Inlined.simulate None input st = Normal st
  /\ forall lib : EncodingLib,
       exists st',
         Inlined.simulate (Some lib) input st = Normal st'
         /\ (convert_string lib (toUTF8Array input) UNICODE SJIS = Throw ->
             Inlined.utf8ToSjis st' = Inlined.conversion_error)
         /\ (forall bs,
                Inlined.toSJISArray (Some lib) input = Normal (Some bs) ->
                bs <> [] ->
                convert_string lib bs UNICODE UTF8 = Throw ->
                Inlined.sjisToUtf8 st' = Inlined.conversion_error)
         /\ (Inlined.toSJISArray (Some lib) input = Normal None
             \/ Inlined.toSJISArray (Some lib) input = Normal (Some []) ->
             Inlined.sjisToUtf8 st' = Inlined.sjis_unsupported).
Proof.
  destruct input as [|u rest]; [congruence|]. split; [reflexivity|].
  intros lib. unfold Inlined.simulate.
  rewrite toSJISArray_returns.
  set (first := convert_string lib (toUTF8Array (u :: rest)) UNICODE SJIS).
  set (res := sjis_result (Some lib) (u :: rest)).
  destruct first as [garbled|]; cbn [bind try_catch];
    (destruct res as [[|b bs']|];
     [ | destruct (convert_string lib (b :: bs') UNICODE UTF8) as [g2|] eqn:E2 | ];
     cbn [bind try_catch]; eexists; (split; [reflexivity|]);
     cbn [Inlined.utf8ToSjis Inlined.sjisToUtf8];
     (split; [intros; first [reflexivity | discriminate]|]);
     (split;
      [ intros bs Hbs Hne Hthrow; inversion Hbs; subst;
        first [congruence | reflexivity]
      | intros [H|H]; first [reflexivity | discriminate H] ])).
Qed.

Lemma simulate_failure_states_witness :
  Inlined.simulate None [0x3042] Inlined.initial_state = Normal Inlined.initial_state
  /\ exists st',
       Inlined.simulate (Some Sample.codec) [0x3042] Inlined.initial_state = Normal st'
       /\ Inlined.utf8ToSjis st' = Inlined.conversion_error
       /\ Inlined.sjisToUtf8 st' = Inlined.conversion_error.
Proof.
  assert (Hne : [0x3042] <> @nil Z) by discriminate.
  destruct (simulate_failure_states [0x3042] Inlined.initial_state Hne) as [H0 H].
  split; [exact H0|].
  destruct (H Sample.codec) as (st' & Hrun & H1 & H2 & _).
  exists st'. split; [exact Hrun|]. split.
  - apply H1. reflexivity.
  - apply (H2 [0x82; 0xA0]); [reflexivity | discriminate | reflexivity].
Defined.

(* ================================================================== *)
(** * The two implementations of [analyzeText] *)
(* ================================================================== *)

Lemma map_pure_Forall2 {A B C} (g1 : A -> Z -> B) (g2 : A -> Z -> C)
    (R : B -> C -> Prop) (l : list A) :
  (forall x i, R (g1 x i) (g2 x i)) ->
  forall i, Forall2 R (map_pure g1 i l) (map_pure g2 i l).
Proof.
  intros H. induction l as [|x rest IH]; intros i; constructor; auto.
Qed.

Lemma utils_analyzeChar_returns (codec : option EncodingLib) (c : jsstring) (i : Z) :
  c <> [] ->
  UtilsEncoding.toSJISArray codec c <> Throw ->
  UtilsEncoding.analyzeChar codec c i =
  Normal (utils_record c (first_code_point c) (utils_sjis_result codec c)).
Proof.
  intros Hc Hok. unfold UtilsEncoding.analyzeChar, utils_sjis_result.
  destruct (UtilsEncoding.toSJISArray codec c) as [bs|]; [|congruence].
  cbn [bind]. rewrite (codePoint_of_nonempty c Hc). reflexivity.
Qed.

(** C10: when the codec is not loaded, or converts every character of the
    input without throwing (as the library the module names does), both
    implementations return record sequences of the same length whose
    records agree on the character, the code point and the utf8 bytes, hex
    and binary, the fields the two record shapes have in common besides the
    legacy view. *)
Theorem implementations_agree
    (codec : option EncodingLib) (text : jsstring)
    (Hok : forall c, In c (Array_from text) ->
                     UtilsEncoding.toSJISArray codec c <> Throw) :
  exists rs1 rs2,
    UtilsEncoding.analyzeText codec text = Normal rs1
    /\ Inlined.analyzeText codec text = Normal rs2
    /\ length rs1 = length rs2
    /\ Forall2 same_universal_fields rs1 rs2.
Proof.
  set (g1 := fun (c : jsstring) (i : Z) =>
               utils_record c (first_code_point c) (utils_sjis_result codec c)).
  exists (map_pure g1 0 (Array_from text)), (inlined_records codec text).
  split; [|split; [apply analyzeText_returns|split]].
  - unfold UtilsEncoding.analyzeText. destruct text as [|u rest]; [reflexivity|].
    apply map_indexed_pure. intros c i Hin.
    apply utils_analyzeChar_returns; [exact (Array_from_nonempty _ _ Hin) | auto].
  - unfold inlined_records. now rewrite !map_pure_length.
  - apply map_pure_Forall2. intros c i. repeat split.
Qed.

Lemma implementations_agree_witness :
  exists rs1 rs2,
    UtilsEncoding.analyzeText (Some Sample.codec) [0x3042; 0xD83D; 0xDE80] = Normal rs1
    /\ Inlined.analyzeText (Some Sample.codec) [0x3042; 0xD83D; 0xDE80] = Normal rs2
    /\ length rs1 = length rs2
    /\ Forall2 same_universal_fields rs1 rs2.
Proof.
  apply (implementations_agree (Some Sample.codec) [0x3042; 0xD83D; 0xDE80]).
  intros c [<-|[<-|[]]]; discriminate.
Defined.

(* ================================================================== *)
(** * More on the records of the entry file *)
(* ================================================================== *)

(** Every element of [Array.from] is one code unit or a surrogate pair. *)
Lemma Array_from_shape (s c : jsstring) :
  In c (Array_from s) ->
  (exists u, c = [u])
  \/ (exists u v, c = [u; v]
                  /\ is_high_surrogate u = true /\ is_low_surrogate v = true).
Proof.
  induction s as [|u|u v rest IH1 IH2] using list_pair_ind.
  - intros [].
  - intros [<-|[]]. left. now exists u.
  - rewrite Array_from_step.
    destruct (is_high_surrogate u && is_low_surrogate v) eqn:E.
    + apply andb_true_iff in E as [Eu Ev].
      intros [<-|Hin]; [right; now exists u, v | auto].
    + intros [<-|Hin]; [left; now exists u | auto].
Qed.

Lemma Array_from_units (P : Z -> Prop) (s c : jsstring) :
  Forall P s -> In c (Array_from s) -> Forall P c.
Proof.
  induction s as [|u|u v rest IH1 IH2] using list_pair_ind; intros H.
  - intros [].
  - intros [<-|[]]. exact H.
  - rewrite Array_from_step.
    inversion H as [|? ? Hu H']; subst. inversion H' as [|? ? Hv Hrest]; subst.
    destruct (is_high_surrogate u && is_low_surrogate v);
      (intros [<-|Hin]; [repeat constructor; assumption | auto]).
Qed.

Lemma Array_from_length_le (s : jsstring) :
  (length (Array_from s) <= length s)%nat.
Proof.
  induction s as [|u|u v rest IH1 IH2] using list_pair_ind.
  - apply le_n.
  - apply le_n.
  - rewrite Array_from_step.
    destruct (is_high_surrogate u && is_low_surrogate v); cbn [length] in *; lia.
Qed.

Lemma inlined_records_Forall (codec : option EncodingLib) (text : jsstring)
    (P : Inlined.CharRecord -> Prop) :
  (forall c i, In c (Array_from text) ->
               P (inlined_record c i (first_code_point c) (sjis_result codec c))) ->
  Forall P (inlined_records codec text).
Proof.
  intros H. unfold inlined_records.
  generalize 0 as i. revert H.
  generalize (Array_from text) as l.
  induction l as [|c rest IH]; intros H i; constructor.
  - apply H. now left.
  - apply IH. intros c' i' Hin. apply H. now right.
Qed.

(** X1: the records follow the code points of the input in order: there is
    one record per element of [Array.from(text)], and the record at
    position [j] has [id] [j] and that element as its [char]. *)
Theorem records_follow_input (codec : option EncodingLib) (text : jsstring) :
  exists rs,
    Inlined.analyzeText codec text = Normal rs
    /\ length rs = length (Array_from text)
    /\ forall (j : nat) (c : jsstring),
         nth_error (Array_from text) j = Some c ->
         exists r, nth_error rs j = Some r
                   /\ Inlined.id r = Z.of_nat j
                   /\ Inlined.char r = c.
Proof.
  exists (inlined_records codec text). split; [apply analyzeText_returns|].
  split; [apply map_pure_length|].
  intros j c Hj. rewrite inlined_records_nth, Hj. cbn [option_map].
  eexists. repeat split.
Qed.

Lemma lor_byte (a b : Z) : is_byte a -> is_byte b -> is_byte (Z.lor a b).
Proof.
  unfold is_byte. intros Ha Hb.
  assert (H0 : 0 <= Z.lor a b) by (apply Z.lor_nonneg; lia).
  split; [exact H0|].
  destruct (Z.eq_dec (Z.lor a b) 0) as [->|Hnz]; [lia|].
  apply (Z.log2_lt_pow2 _ 8); [lia|].
  rewrite Z.log2_lor by lia.
  apply Z.max_lub_lt.
  - destruct (Z.eq_dec a 0) as [->|]; [cbn; lia|]. apply Z.log2_lt_pow2; lia.
  - destruct (Z.eq_dec b 0) as [->|]; [cbn; lia|]. apply Z.log2_lt_pow2; lia.
Qed.

Lemma low_six_bits (x : Z) : 0 <= Z.land x 0x3F < 64.
Proof.
  change 0x3F with (Z.ones 6). rewrite Z.land_ones by lia.
  apply Z.mod_pos_bound. lia.
Qed.

Lemma continuation_byte (x : Z) : is_byte (Z.lor 0x80 (Z.land x 0x3F)).
Proof.
  pose proof (low_six_bits x). apply lor_byte; unfold is_byte; lia.
Qed.

Lemma shiftr_bound (cp k m : Z) :
  0 <= k -> 0 <= cp < m * 2 ^ k -> 0 <= Z.shiftr cp k < m.
Proof.
  intros Hk Hcp. rewrite Z.shiftr_div_pow2 by lia.
  assert (0 < 2 ^ k) by (apply Z.pow_pos_nonneg; lia).
  split; [apply Z.div_pos; lia | apply Z.div_lt_upper_bound; lia].
Qed.

(** The bytes of a scalar value are bytes, one to four of them. *)
Lemma utf8_of_scalar_bytes (cp : Z) :
  0 <= cp <= 0x10FFFF ->
  Forall is_byte (utf8_of_scalar cp)
  /\ (1 <= length (utf8_of_scalar cp) <= 4)%nat.
Proof.
  intros Hcp. unfold utf8_of_scalar.
  destruct (Z.ltb_spec cp 0x80); [|destruct (Z.ltb_spec cp 0x800);
    [|destruct (Z.ltb_spec cp 0x10000)]].
  - split; [repeat constructor; unfold is_byte; lia | cbn; lia].
  - split; [|cbn; lia].
    apply Forall_cons;
      [|repeat (apply Forall_cons; [apply continuation_byte|]); apply Forall_nil].
    pose proof (shiftr_bound cp 6 32 ltac:(lia) ltac:(cbn; lia)).
    apply lor_byte; unfold is_byte; lia.
  - split; [|cbn; lia].
    apply Forall_cons;
      [|repeat (apply Forall_cons; [apply continuation_byte|]); apply Forall_nil].
    pose proof (shiftr_bound cp 12 16 ltac:(lia) ltac:(cbn; lia)).
    apply lor_byte; unfold is_byte; lia.
  - split; [|cbn; lia].
    apply Forall_cons;
      [|repeat (apply Forall_cons; [apply continuation_byte|]); apply Forall_nil].
    pose proof (shiftr_bound cp 18 8 ltac:(lia) ltac:(cbn; lia)).
    apply lor_byte; unfold is_byte; lia.
Qed.

(** The bytes of one element of [Array.from]: the encoding of its code
    point, or of U+FFFD for a lone surrogate. *)
Lemma toUTF8Array_element (s c : jsstring) :
  In c (Array_from s) ->
  toUTF8Array c =
  if is_lone_surrogate c then [0xEF; 0xBF; 0xBD]
  else utf8_of_scalar (first_code_point c).
Proof.
  intros Hin. destruct (Array_from_shape s c Hin) as [(u & ->)|(u & v & -> & Hu & Hv)].
  - unfold toUTF8Array, TextEncoder_encode. cbn [scalar_values is_lone_surrogate].
    destruct (is_surrogate u); cbn [flat_map]; [reflexivity|].
    now rewrite app_nil_r.
  - unfold toUTF8Array, TextEncoder_encode, first_code_point.
    cbn [scalar_values is_lone_surrogate codePointAt0]. rewrite Hu, Hv.
    cbn [andb flat_map]. now rewrite app_nil_r.
Qed.

Lemma first_code_point_range (s c : jsstring) :
  Forall is_code_unit s -> In c (Array_from s) ->
  0 <= first_code_point c <= 0x10FFFF.
Proof.
  intros Hs Hin. pose proof (Array_from_units _ _ _ Hs Hin) as Hc.
  destruct (Array_from_shape s c Hin) as [(u & ->)|(u & v & -> & Hu & Hv)].
  - inversion Hc; subst. unfold is_code_unit in *. cbn. lia.
  - unfold first_code_point. cbn [codePointAt0]. rewrite Hu, Hv. cbn [andb].
    unfold is_high_surrogate, is_low_surrogate, pair_value in *. lia.
Qed.

Lemma toUTF8Array_element_bytes (s c : jsstring) :
  Forall is_code_unit s -> In c (Array_from s) ->
  Forall is_byte (toUTF8Array c) /\ (1 <= length (toUTF8Array c) <= 4)%nat.
Proof.
  intros Hs Hin. rewrite (toUTF8Array_element s c Hin).
  destruct (is_lone_surrogate c).
  - split; [repeat constructor; unfold is_byte; lia | cbn; lia].
  - apply utf8_of_scalar_bytes. now apply (first_code_point_range s).
Qed.

Lemma toHexString_reparse (bs : list Z) :
  Forall is_byte bs -> reparse 16 (Inlined.toHexString (Some bs)) = Some bs.
Proof.
  intros Hbytes. unfold Inlined.toHexString.
  rewrite (map_ext_Forall _ _ _ is_byte hex_of_byte_digits Hbytes).
  apply reparse_join. eapply Forall_impl; [|exact Hbytes].
  intros b Hb. split; [now apply parse_two_hex_digits | now apply two_hex_digits_no_space].
Qed.

Lemma toBinaryString_bits (bs : list Z) :
  Forall is_byte bs ->
  Inlined.toBinaryString (Some bs) = join (lit " ") (map eight_bits bs).
Proof.
  intros Hbytes. unfold Inlined.toBinaryString.
  now rewrite (map_ext_Forall _ _ _ is_byte binary_of_byte_bits Hbytes).
Qed.

Lemma toBinaryString_reparse (bs : list Z) :
  Forall is_byte bs -> reparse 2 (Inlined.toBinaryString (Some bs)) = Some bs.
Proof.
  intros Hbytes. rewrite (toBinaryString_bits bs Hbytes).
  apply reparse_join. eapply Forall_impl; [|exact Hbytes].
  intros b Hb. split; [now apply parse_eight_bits | apply eight_bits_no_space].
Qed.

(** X2: on an input of UTF-16 code units, the utf8 view of every record is
    well formed: one to four bytes, each in 0..255, [length] their number,
    and [hex] and [binary] read back as exactly those bytes. *)
Theorem utf8_view_well_formed
    (codec : option EncodingLib) (text : jsstring)
    (Hunits : Forall is_code_unit text) :
  exists rs,
    Inlined.analyzeText codec text = Normal rs
    /\ Forall (fun r =>
                 let view := Inlined.utf8 r in
                 Forall is_byte (Inlined.utf8_bytes view)
                 /\ (1 <= length (Inlined.utf8_bytes view) <= 4)%nat
                 /\ Inlined.utf8_length view
                    = Z.of_nat (length (Inlined.utf8_bytes view))
                 /\ reparse 16 (Inlined.utf8_hex view) = Some (Inlined.utf8_bytes view)
                 /\ reparse 2 (Inlined.utf8_binary view) = Some (Inlined.utf8_bytes view))
              rs.
Proof.
  exists (inlined_records codec text). split; [apply analyzeText_returns|].
  apply inlined_records_Forall. intros c i Hin.
  destruct (toUTF8Array_element_bytes text c Hunits Hin) as [Hb Hlen].
  cbn. repeat split; try assumption; try lia.
  - now apply toHexString_reparse.
  - now apply toBinaryString_reparse.
Qed.

Lemma utf8_view_well_formed_witness :
  exists rs,
    Inlined.analyzeText None [0x41; 0x3042; 0xD83D; 0xDE80] = Normal rs
    /\ Forall (fun r =>
                 let view := Inlined.utf8 r in
                 Forall is_byte (Inlined.utf8_bytes view)
                 /\ (1 <= length (Inlined.utf8_bytes view) <= 4)%nat
                 /\ Inlined.utf8_length view
                    = Z.of_nat (length (Inlined.utf8_bytes view))
                 /\ reparse 16 (Inlined.utf8_hex view) = Some (Inlined.utf8_bytes view)
                 /\ reparse 2 (Inlined.utf8_binary view) = Some (Inlined.utf8_bytes view))
              rs.
Proof.
  apply (utf8_view_well_formed None [0x41; 0x3042; 0xD83D; 0xDE80]).
  repeat constructor; unfold is_code_unit; lia.
Defined.

(** X3: the utf8 bytes of a record are the UTF-8 encoding of the code point
    its label shows, except for a lone surrogate, whose label shows the
    surrogate and whose bytes are EF BF BD, the encoding of U+FFFD. *)
Theorem utf8_bytes_match_label (codec : option EncodingLib) (text : jsstring) :
  exists rs,
    Inlined.analyzeText codec text = Normal rs
    /\ Forall (fun r =>
                 Inlined.codePoint r
                 = codePoint_label (first_code_point (Inlined.char r))
                 /\ Inlined.utf8_bytes (Inlined.utf8 r)
                    = if is_lone_surrogate (Inlined.char r)
                      then [0xEF; 0xBF; 0xBD]
                      else utf8_of_scalar (first_code_point (Inlined.char r)))
              rs.
Proof.
  exists (inlined_records codec text). split; [apply analyzeText_returns|].
  apply inlined_records_Forall. intros c i Hin. cbn. split; [reflexivity|].
  now apply (toUTF8Array_element text).
Qed.

(** X4: whatever the state of the codec, the records have the same [id],
    [char], [codePoint] and utf8 view: the codec only decides the legacy
    view. *)
Theorem universal_fields_ignore_codec
    (codec1 codec2 : option EncodingLib) (text : jsstring) :
  exists rs1 rs2,
    Inlined.analyzeText codec1 text = Normal rs1
    /\ Inlined.analyzeText codec2 text = Normal rs2
    /\ Forall2 same_but_legacy rs1 rs2.
Proof.
  exists (inlined_records codec1 text), (inlined_records codec2 text).
  split; [apply analyzeText_returns|]. split; [apply analyzeText_returns|].
  apply map_pure_Forall2. intros c i. repeat split.
Qed.

(* ================================================================== *)
(** * More on the legacy view *)
(* ================================================================== *)

(** X5: a literal "?" is never taken for the substitute byte: whenever its
    conversion returns, whatever the bytes, [isValid] is true and the
    reported length is the number of bytes. *)
Theorem question_mark_is_valid
    (lib : EncodingLib) (bs : list Z) (i : Z)
    (Henc : Inlined.toSJISArray (Some lib) (lit "?") = Normal (Some bs)) :
  exists r,
    Inlined.analyzeChar (Some lib) (lit "?") i = Normal r
    /\ Inlined.sjis_bytes (Inlined.sjis r) = bs
    /\ Inlined.sjis_isValid (Inlined.sjis r) = FBool true
    /\ Inlined.sjis_length (Inlined.sjis r) = Z.of_nat (length bs).
Proof.
  rewrite (analyzeChar_returns _ (lit "?") i) by discriminate.
  assert (Hs : sjis_result (Some lib) (lit "?") = Some bs)
    by (rewrite toSJISArray_returns in Henc; congruence).
  rewrite Hs. eexists. split; [reflexivity|].
  cbn [inlined_record Inlined.sjis Inlined.sjis_bytes Inlined.sjis_isValid
       Inlined.sjis_length Inlined.isSjisValid_of Inlined.or_empty].
  replace (jsstring_eqb (lit "?") (lit "?")) with true by reflexivity.
  cbn [negb]. rewrite !andb_false_r. repeat split.
Qed.

Lemma question_mark_is_valid_witness :
  exists r,
    Inlined.analyzeChar (Some Sample.codec) (lit "?") 0 = Normal r
    /\ Inlined.sjis_bytes (Inlined.sjis r) = [0x3F]
    /\ Inlined.sjis_isValid (Inlined.sjis r) = FBool true
    /\ Inlined.sjis_length (Inlined.sjis r) = Z.of_nat (length [0x3F]).
Proof.
  apply (question_mark_is_valid Sample.codec [0x3F] 0). reflexivity.
Defined.

Lemma isSjisValid_falsy (sjis : option (list Z)) (c : jsstring) :
  truthy (Inlined.isSjisValid_of sjis c) = false
  <-> sjis = None \/ (sjis = Some [0x3F] /\ c <> lit "?").
Proof.
  destruct sjis as [bs|]; cbn [Inlined.isSjisValid_of truthy].
  - rewrite negb_false_iff, andb_true_iff, single_substitute_byte,
      negb_true_iff, <- not_true_iff_false, jsstring_eqb_eq.
    split.
    + intros [-> Hc]. right. now split.
    + intros [H|[H Hc]]; [discriminate | split; congruence].
  - split; [now left | reflexivity].
Qed.

(** X6: in every record the legacy [hex] and [binary] render the legacy
    [bytes], valid or not; the legacy [length] is the number of bytes when
    [isValid] is truthy and 0 otherwise; and [isValid] is falsy exactly
    when the conversion gave [null] or gave the single byte 3F for a
    character other than "?". *)
Theorem legacy_view_consistent (codec : option EncodingLib) (text : jsstring) :
  exists rs,
    Inlined.analyzeText codec text = Normal rs
    /\ Forall (fun r =>
                 let view := Inlined.sjis r in
                 Inlined.sjis_hex view
                 = Inlined.toHexString (Some (Inlined.sjis_bytes view))
                 /\ Inlined.sjis_binary view
                    = Inlined.toBinaryString (Some (Inlined.sjis_bytes view))
                 /\ Inlined.sjis_length view
                    = (if truthy (Inlined.sjis_isValid view)
                       then Z.of_nat (length (Inlined.sjis_bytes view)) else 0)
                 /\ (truthy (Inlined.sjis_isValid view) = false
                     <-> Inlined.toSJISArray codec (Inlined.char r) = Normal None
                         \/ (Inlined.toSJISArray codec (Inlined.char r)
                             = Normal (Some [0x3F])
                             /\ Inlined.char r <> lit "?")))
              rs.
Proof.
  exists (inlined_records codec text). split; [apply analyzeText_returns|].
  apply inlined_records_Forall. intros c i _.
  cbn. repeat (split; [reflexivity|]).
  rewrite toSJISArray_returns, isSjisValid_falsy.
  split; (intros [H|[H Hc]]; [left | right; split; [|exact Hc]]); congruence.
Qed.

Lemma fold_left_sjis_length (rs : list Inlined.CharRecord) :
  Forall (fun r =>
            Inlined.sjis_length (Inlined.sjis r)
            = (if truthy (Inlined.sjis_isValid (Inlined.sjis r))
               then Z.of_nat (length (Inlined.sjis_bytes (Inlined.sjis r)))
               else 0)) rs ->
  forall acc,
    fold_left (fun a item => a + Inlined.sjis_length (Inlined.sjis item)) rs acc
    = acc + sum_valid_sjis_lengths rs.
Proof.
  induction 1 as [|r rest Hr _ IH]; intros acc;
    cbn [fold_left sum_valid_sjis_lengths fold_right].
  - lia.
  - rewrite IH, Hr. unfold sum_valid_sjis_lengths. lia.
Qed.

Lemma sum_valid_all (rs : list Inlined.CharRecord) :
  Inlined.canFullSjis rs = true -> sum_valid_sjis_lengths rs = sum_sjis_lengths rs.
Proof.
  unfold Inlined.canFullSjis.
  induction rs as [|r rest IH]; [reflexivity|].
  cbn [forallb sum_valid_sjis_lengths sum_sjis_lengths fold_right].
  intros H. apply andb_true_iff in H as [Hr Hrest]. rewrite Hr.
  f_equal. now apply IH.
Qed.

(** X7: the legacy total of the converter view counts the bytes of the
    records whose [isValid] is truthy only; when the whole string is
    representable ([canFullSjis], the only case in which the total is
    displayed) it is the sum of the lengths of all the legacy byte
    sequences. *)
Theorem legacy_total (codec : option EncodingLib) (text : jsstring) :
  exists rs,
    Inlined.analyzeText codec text = Normal rs
    /\ Inlined.totalSjis rs = sum_valid_sjis_lengths rs
    /\ (Inlined.canFullSjis rs = true ->
        Inlined.totalSjis rs = sum_sjis_lengths rs).
Proof.
  exists (inlined_records codec text). split; [apply analyzeText_returns|].
  assert (Htotal : Inlined.totalSjis (inlined_records codec text)
                   = sum_valid_sjis_lengths (inlined_records codec text)).
  { unfold Inlined.totalSjis. rewrite fold_left_sjis_length; [lia|].
    apply map_pure_Forall. reflexivity. }
  split; [exact Htotal|].
  intros Hall. rewrite Htotal. now apply sum_valid_all.
Qed.

(* ================================================================== *)
(** * More on the module of src/utils/encoding.js *)
(* ================================================================== *)

Lemma map_indexed_throw {A B} (f : A -> Z -> completion B) (l : list A) :
  forall i,
    map_indexed f i l = Throw -> exists x j, In x l /\ f x j = Throw.
Proof.
  induction l as [|x rest IH]; intros i; cbn [map_indexed]; [discriminate|].
  destruct (f x i) as [y|] eqn:E; cbn [bind].
  - destruct (map_indexed f (i + 1) rest) as [ys|] eqn:E'; cbn [bind]; [discriminate|].
    intros _. destruct (IH _ E') as (x' & j & Hin & Hx').
    exists x', j. split; [now right | exact Hx'].
  - intros _. exists x, i. split; [now left | exact E].
Qed.

Lemma map_indexed_throws {A B} (f : A -> Z -> completion B) (l : list A) (x : A) :
  In x l -> (forall j, f x j = Throw) ->
  forall i, map_indexed f i l = Throw.
Proof.
  induction l as [|y rest IH]; intros Hin Hx i; [destruct Hin|].
  cbn [map_indexed]. destruct Hin as [->|Hin].
  - now rewrite Hx.
  - destruct (f y i); cbn [bind]; [|reflexivity].
    now rewrite (IH Hin Hx).
Qed.

Lemma utils_analyzeChar_throw_iff (codec : option EncodingLib) (c : jsstring) (i : Z) :
  c <> [] ->
  (UtilsEncoding.analyzeChar codec c i = Throw
   <-> UtilsEncoding.toSJISArray codec c = Throw).
Proof.
  intros Hc. unfold UtilsEncoding.analyzeChar.
  destruct (UtilsEncoding.toSJISArray codec c) as [bs|]; cbn [bind].
  - rewrite (codePoint_of_nonempty c Hc). cbn [bind]. split; discriminate.
  - split; reflexivity.
Qed.

(** X8: the module's [analyzeText] throws exactly when the codec throws on
    the conversion of at least one character of the input; nothing else
    makes it throw, and one such character loses the whole result. *)
Theorem utils_analyzeText_throws_iff (codec : option EncodingLib) (text : jsstring) :
  UtilsEncoding.analyzeText codec text = Throw
  <-> exists c, In c (Array_from text)
                /\ UtilsEncoding.toSJISArray codec c = Throw.
Proof.
  unfold UtilsEncoding.analyzeText. destruct text as [|u rest].
  - split; [discriminate | intros (c & [] & _)].
  - set (chars := Array_from (u :: rest)). split.
    + intros H. apply map_indexed_throw in H as (c & j & Hin & Hc).
      exists c. split; [exact Hin|].
      apply (utils_analyzeChar_throw_iff codec c j); [|exact Hc].
      exact (Array_from_nonempty _ _ Hin).
    + intros (c & Hin & Hc).
      apply (map_indexed_throws _ _ c Hin). intros j.
      apply utils_analyzeChar_throw_iff; [|exact Hc].
      exact (Array_from_nonempty _ _ Hin).
Qed.

(** X9: without the codec the module's analysis returns, and the legacy
    view of every record is empty: no bytes, and the empty string for [hex]
    and [binary]. *)
Theorem utils_without_codec (text : jsstring) :
  exists rs,
    UtilsEncoding.analyzeText None text = Normal rs
    /\ length rs = length (Array_from text)
    /\ Forall (fun r =>
                 UtilsEncoding.bytes (UtilsEncoding.sjis r) = []
                 /\ UtilsEncoding.hex (UtilsEncoding.sjis r) = lit ""
                 /\ UtilsEncoding.binary (UtilsEncoding.sjis r) = lit "")
              rs.
Proof.
  set (g := fun (c : jsstring) (i : Z) =>
              utils_record c (first_code_point c) (utils_sjis_result None c)).
  exists (map_pure g 0 (Array_from text)). split; [|split].
  - unfold UtilsEncoding.analyzeText. destruct text as [|u rest]; [reflexivity|].
    apply map_indexed_pure. intros c i Hin.
    apply utils_analyzeChar_returns;
      [exact (Array_from_nonempty _ _ Hin) | discriminate].
  - apply map_pure_length.
  - apply map_pure_Forall. intros c i. repeat split.
Qed.

(* ================================================================== *)
(** * More on the garbling simulator *)
(* ================================================================== *)

(** X10: with the codec loaded and a non-empty input, a run of the effect
    writes both outputs: the state it leaves does not depend on the state
    it started from, so nothing of an earlier input is left on display. *)
Theorem simulate_overwrites
    (lib : EncodingLib) (input : jsstring) (st1 st2 : Inlined.SimState)
    (Hinput : input <> []) :
  Inlined.simulate (Some lib) input st1 = Inlined.simulate (Some lib) input st2.
Proof.
  destruct input as [|u rest]; [congruence|].
  unfold Inlined.simulate. rewrite toSJISArray_returns.
  destruct (convert_string lib (toUTF8Array (u :: rest)) UNICODE SJIS);
    cbn [bind try_catch];
    (destruct (sjis_result (Some lib) (u :: rest)) as [[|b bs]|];
     [reflexivity | | reflexivity];
     destruct (convert_string lib (b :: bs) UNICODE UTF8); reflexivity).
Qed.

Lemma simulate_overwrites_witness :
  Inlined.simulate (Some Sample.codec) (lit "A") Inlined.initial_state
  = Inlined.simulate (Some Sample.codec) (lit "A")
      {| Inlined.utf8ToSjis := lit "old"; Inlined.sjisToUtf8 := lit "old" |}.
Proof.
  apply (simulate_overwrites Sample.codec (lit "A")). discriminate.
Defined.

(* ================================================================== *)
(** * The bit displays *)
(* ================================================================== *)

Lemma eight_bits_clean (b : Z) : clean_group (eight_bits b).
Proof.
  split; [discriminate|].
  unfold eight_bits, bit_char. cbn [map forallb].
  repeat match goal with |- context [Z.testbit b ?i] => destruct (Z.testbit b i) end;
    reflexivity.
Qed.

Lemma trimStart_clean (g rest : jsstring) :
  clean_group g -> trimStart (g ++ rest) = g ++ rest.
Proof.
  intros [Hne Hg]. destruct g as [|c g]; [congruence|].
  cbn [forallb] in Hg. apply andb_true_iff in Hg as [Hc _].
  apply negb_true_iff in Hc. cbn [app trimStart]. now rewrite Hc.
Qed.

Lemma trimEnd_last (s : jsstring) (c : Z) :
  is_whitespace c = false -> trimEnd (s ++ [c]) = s ++ [c].
Proof.
  intros Hc. unfold trimEnd. rewrite rev_app_distr. cbn [rev app trimStart].
  rewrite Hc. cbn [rev]. now rewrite rev_involutive.
Qed.

Lemma clean_group_last (g : jsstring) :
  clean_group g -> exists s c, g = s ++ [c] /\ is_whitespace c = false.
Proof.
  intros [Hne Hg]. destruct (exists_last Hne) as (s & c & ->).
  exists s, c. split; [reflexivity|].
  rewrite forallb_app in Hg. apply andb_true_iff in Hg as [_ Hc].
  cbn [forallb] in Hc. rewrite andb_true_r in Hc. now apply negb_true_iff.
Qed.

Lemma join_clean_last (gs : list jsstring) :
  gs <> [] -> Forall clean_group gs ->
  exists s c, join (lit " ") gs = s ++ [c] /\ is_whitespace c = false.
Proof.
  induction gs as [|g [|g' rest] IH]; intros Hne H; [congruence| |].
  - inversion H; subst. now apply clean_group_last.
  - inversion H as [|? ? Hg Hrest]; subst.
    destruct (IH ltac:(discriminate) Hrest) as (s & c & Hs & Hc).
    exists (g ++ lit " " ++ s), c. split; [|exact Hc].
    change (join (lit " ") (g :: g' :: rest))
      with (g ++ lit " " ++ join (lit " ") (g' :: rest)).
    rewrite Hs, <- !app_assoc. reflexivity.
Qed.

Lemma join_clean_head (gs : list jsstring) :
  gs <> [] -> Forall clean_group gs ->
  exists g rest, join (lit " ") gs = g ++ rest /\ clean_group g.
Proof.
  destruct gs as [|g [|g' rest]]; intros Hne H; [congruence| |];
    inversion H; subst.
  - exists g, []. now rewrite app_nil_r.
  - exists g, (lit " " ++ join (lit " ") (g' :: rest)). now split.
Qed.

(** Trimming leaves a rendering as it is. *)
Lemma trim_join_clean (gs : list jsstring) :
  gs <> [] -> Forall clean_group gs ->
  trim (join (lit " ") gs) = join (lit " ") gs.
Proof.
  intros Hne H. unfold trim.
  destruct (join_clean_head gs Hne H) as (g & rest & Hj & Hg).
  rewrite Hj, (trimStart_clean g rest Hg), <- Hj.
  destruct (join_clean_last gs Hne H) as (s & c & Hs & Hc).
  rewrite Hs. now apply trimEnd_last.
Qed.

Lemma split_whitespace_clean (g : jsstring) (f : bool) :
  clean_group g -> split_whitespace_aux f g = [g].
Proof.
  intros [Hne Hg]. revert f. induction g as [|c g IH]; intros f; [congruence|].
  cbn [forallb] in Hg. apply andb_true_iff in Hg as [Hc Hg].
  apply negb_true_iff in Hc. cbn [split_whitespace_aux]. rewrite Hc.
  destruct g as [|c' g']; [reflexivity|].
  rewrite IH; [reflexivity | discriminate | exact Hg].
Qed.

Lemma split_whitespace_clean_app (g rest : jsstring) (f : bool) :
  clean_group g ->
  split_whitespace_aux f (g ++ 32 :: rest) = g :: split_whitespace_aux true rest.
Proof.
  intros [Hne Hg]. revert f. induction g as [|c g IH]; intros f; [congruence|].
  cbn [forallb] in Hg. apply andb_true_iff in Hg as [Hc Hg].
  apply negb_true_iff in Hc. cbn [app split_whitespace_aux]. rewrite Hc.
  destruct g as [|c' g'].
  - cbn [app split_whitespace_aux].
    replace (is_whitespace 32) with true by reflexivity. reflexivity.
  - rewrite IH; [reflexivity | discriminate | exact Hg].
Qed.

Lemma split_whitespace_flag (g rest : jsstring) (f : bool) :
  clean_group g ->
  split_whitespace_aux f (g ++ rest) = split_whitespace_aux false (g ++ rest).
Proof.
  intros [Hne Hg]. destruct g as [|c g]; [congruence|].
  cbn [forallb] in Hg. apply andb_true_iff in Hg as [Hc _].
  apply negb_true_iff in Hc. cbn [app split_whitespace_aux]. now rewrite Hc.
Qed.

(** Splitting a rendering at white space gives its groups. *)
Lemma split_whitespace_join (gs : list jsstring) :
  gs <> [] -> Forall clean_group gs ->
  split_whitespace (join (lit " ") gs) = gs.
Proof.
  unfold split_whitespace.
  induction gs as [|g [|g' rest] IH]; intros Hne H; [congruence| |].
  - inversion H; subst. now apply split_whitespace_clean.
  - inversion H as [|? ? Hg Hrest]; subst.
    change (join (lit " ") (g :: g' :: rest))
      with (g ++ 32 :: join (lit " ") (g' :: rest)).
    rewrite (split_whitespace_clean_app _ _ _ Hg). f_equal.
    destruct (join_clean_head (g' :: rest) ltac:(discriminate) Hrest)
      as (h & t & Hj & Hh).
    rewrite Hj, (split_whitespace_flag h t true Hh), <- Hj.
    apply IH; [discriminate | exact Hrest].
Qed.

Lemma map_pure_of_map {A B C} (h : A -> B) (g : B -> Z -> C) (l : list A) :
  forall i, map_pure g i (map h l) = map_pure (fun x j => g (h x) j) i l.
Proof.
  induction l as [|x rest IH]; intros i; [reflexivity|].
  cbn [map map_pure]. now rewrite IH.
Qed.

Lemma map_pure_ext {A B} (g1 g2 : A -> Z -> B) (l : list A) :
  (forall x i, g1 x i = g2 x i) ->
  forall i, map_pure g1 i l = map_pure g2 i l.
Proof.
  intros H. induction l as [|x rest IH]; intros i; [reflexivity|].
  cbn [map_pure]. now rewrite H, IH.
Qed.

Lemma cells_of_eight_bits (b : Z) :
  map bit_cell (split_units (eight_bits b)) = byte_cells b.
Proof.
  unfold split_units, eight_bits, byte_cells, bit_cell, bit_char.
  cbn [map].
  repeat match goal with |- context [Z.testbit b ?i] => destruct (Z.testbit b i) end;
    reflexivity.
Qed.

(** X11: the entry file's bit display of the binary rendering of [n >= 1]
    bytes has one line per byte, numbered from 1, each of eight boxes, most
    significant bit first, a box on exactly when its bit is set; on the
    rendering of no bytes it shows nothing. *)
Theorem bit_rows_of_bytes
    (bs : list Z) (Hbytes : Forall is_byte bs) (Hne : bs <> []) :
  InlinedView.BitVisualizer (Inlined.toBinaryString (Some bs))
  = Some (map_pure byte_row 0 bs)
  /\ InlinedView.BitVisualizer (Inlined.toBinaryString (Some [])) = None.
Proof.
  split; [|reflexivity].
  rewrite (toBinaryString_bits bs Hbytes).
  assert (Hgs : map eight_bits bs <> []) by (destruct bs; [congruence | discriminate]).
  assert (Hclean : Forall clean_group (map eight_bits bs))
    by (apply Forall_map, Forall_forall; intros; apply eight_bits_clean).
  unfold InlinedView.BitVisualizer.
  destruct (join (lit " ") (map eight_bits bs)) eqn:E.
  - destruct (join_clean_last _ Hgs Hclean) as (s & c & Hs & _).
    rewrite E in Hs. destruct s; discriminate.
  - rewrite <- E, (trim_join_clean _ Hgs Hclean),
      (split_whitespace_join _ Hgs Hclean), map_pure_of_map.
    f_equal. apply map_pure_ext. intros b i.
    unfold byte_row. now rewrite cells_of_eight_bits.
Qed.

Lemma bit_rows_of_bytes_witness :
  InlinedView.BitVisualizer (Inlined.toBinaryString (Some [0xE3; 0x81]))
  = Some (map_pure byte_row 0 [0xE3; 0x81])
  /\ InlinedView.BitVisualizer (Inlined.toBinaryString (Some [])) = None.
Proof.
  apply (bit_rows_of_bytes [0xE3; 0x81]).
  - repeat constructor; unfold is_byte; lia.
  - discriminate.
Defined.

Lemma split_whitespace_concat (s : jsstring) :
  forall f, concat (split_whitespace_aux f s) = remove_whitespace s.
Proof.
  induction s as [|c rest IH]; intros f; [reflexivity|].
  cbn [split_whitespace_aux remove_whitespace filter].
  destruct (is_whitespace c); cbn [negb].
  - destruct f; [apply IH | cbn [concat app]; apply IH].
  - specialize (IH false). unfold remove_whitespace in IH.
    destruct (split_whitespace_aux false rest) as [|g gs];
      cbn [concat app] in *; now rewrite <- IH.
Qed.

Lemma remove_whitespace_trimStart (s : jsstring) :
  remove_whitespace (trimStart s) = remove_whitespace s.
Proof.
  induction s as [|c rest IH]; [reflexivity|].
  cbn [trimStart]. destruct (is_whitespace c) eqn:E; [|reflexivity].
  rewrite IH. unfold remove_whitespace. cbn [filter]. now rewrite E.
Qed.

Lemma remove_whitespace_trim (s : jsstring) :
  remove_whitespace (trim s) = remove_whitespace s.
Proof.
  unfold trim, trimEnd.
  assert (Hrev : forall l, remove_whitespace (rev l) = rev (remove_whitespace l))
    by (intros l; apply filter_rev).
  rewrite Hrev, remove_whitespace_trimStart, Hrev, rev_involutive.
  apply remove_whitespace_trimStart.
Qed.

Lemma row_cells_concat (groups : list jsstring) :
  forall i,
    concat (map InlinedView.row_cells
              (map_pure (fun byteStr rowIdx =>
                           {| InlinedView.row_number := rowIdx + 1;
                              InlinedView.row_cells :=
                                map bit_cell (split_units byteStr) |})
                        i groups))
    = map bit_cell (split_units (concat groups)).
Proof.
  induction groups as [|g rest IH]; intros i; [reflexivity|].
  cbn [map_pure map concat InlinedView.row_cells]. rewrite IH.
  unfold split_units. now rewrite !map_app.
Qed.

Lemma row_numbers (groups : list jsstring) (j : nat) (row : InlinedView.BitRow) :
  nth_error
    (map_pure (fun byteStr rowIdx =>
                 {| InlinedView.row_number := rowIdx + 1;
                    InlinedView.row_cells := map bit_cell (split_units byteStr) |})
              0 groups) j = Some row ->
  InlinedView.row_number row = Z.of_nat j + 1.
Proof.
  rewrite map_pure_nth. destruct (nth_error groups j); cbn [option_map]; [|discriminate].
  intros H. injection H as <-. reflexivity.
Qed.

(** X12: on any non-empty string the two bit displays show the same boxes in
    the same order: the lines of the entry file's display, put end to end,
    are the boxes of the flat display; white space shows in neither, and
    line [j] (from 0) is numbered [j + 1]. *)
Theorem bit_displays_agree (binaryString : jsstring) (Hne : binaryString <> []) :
  exists rows,
    InlinedView.BitVisualizer binaryString = Some rows
    /\ concat (map InlinedView.row_cells rows)
       = ComponentsUi.BitVisualizer binaryString
    /\ Forall (fun row =>
                 Forall (fun cell =>
                           exists u, cell_text cell = [u]
                                     /\ is_whitespace u = false)
                        (InlinedView.row_cells row)) rows
    /\ forall j row, nth_error rows j = Some row ->
                     InlinedView.row_number row = Z.of_nat j + 1.
Proof.
  destruct binaryString as [|u rest]; [congruence|].
  eexists. split; [reflexivity|]. split; [|split].
  - rewrite row_cells_concat. unfold split_whitespace.
    rewrite split_whitespace_concat, remove_whitespace_trim. reflexivity.
  - set (s := trim (u :: rest)).
    assert (Hall : Forall (fun g => forallb (fun c => negb (is_whitespace c)) g = true)
                          (split_whitespace s)).
    { unfold split_whitespace. generalize false as f.
      induction s as [|c t IH]; intros f.
      - repeat constructor.
      - cbn [split_whitespace_aux]. destruct (is_whitespace c) eqn:E.
        + destruct f; [apply IH | constructor; [reflexivity | apply IH]].
        + specialize (IH false).
          destruct (split_whitespace_aux false t) as [|g gs].
          * repeat constructor. cbn [forallb]. now rewrite E.
          * inversion IH; subst. constructor; [|assumption].
            cbn [forallb]. rewrite E. cbn [negb andb]. assumption. }
    revert Hall. generalize (split_whitespace s) as groups. generalize 0 as i.
    intros i groups. revert i.
    induction groups as [|g gs IH]; intros i Hall; [constructor|].
    inversion Hall as [|? ? Hg Hgs]; subst.
    cbn [map_pure]. constructor; [|apply IH; exact Hgs].
    cbn [InlinedView.row_cells]. unfold split_units. rewrite map_map.
    apply Forall_map, Forall_forall. intros c Hc.
    exists c. split; [reflexivity|].
    rewrite forallb_forall in Hg. apply negb_true_iff, Hg, Hc.
  - intros j row. apply row_numbers.
Qed.

Lemma bit_displays_agree_witness :
  exists rows,
    InlinedView.BitVisualizer (lit " 0100  0001 ") = Some rows
    /\ concat (map InlinedView.row_cells rows)
       = ComponentsUi.BitVisualizer (lit " 0100  0001 ")
    /\ Forall (fun row =>
                 Forall (fun cell =>
                           exists u, cell_text cell = [u]
                                     /\ is_whitespace u = false)
                        (InlinedView.row_cells row)) rows
    /\ forall j row, nth_error rows j = Some row ->
                     InlinedView.row_number row = Z.of_nat j + 1.
Proof.
  apply (bit_displays_agree (lit " 0100  0001 ")). discriminate.
Defined.

Lemma remove_whitespace_clean (g : jsstring) :
  clean_group g -> remove_whitespace g = g.
Proof.
  intros [_ Hg]. unfold remove_whitespace.
  induction g as [|c g IH]; [reflexivity|].
  cbn [forallb] in Hg. apply andb_true_iff in Hg as [Hc Hg].
  cbn [filter]. rewrite Hc. now rewrite (IH Hg).
Qed.

Lemma remove_whitespace_join (gs : list jsstring) :
  Forall clean_group gs -> remove_whitespace (join (lit " ") gs) = concat gs.
Proof.
  induction gs as [|g [|g' rest] IH]; intros H; [reflexivity| |].
  - inversion H; subst. cbn [join concat]. rewrite app_nil_r.
    now apply remove_whitespace_clean.
  - inversion H as [|? ? Hg Hrest]; subst.
    change (join (lit " ") (g :: g' :: rest))
      with (g ++ 32 :: join (lit " ") (g' :: rest)).
    unfold remove_whitespace in *. rewrite filter_app. cbn [filter].
    replace (negb (is_whitespace 32)) with false by reflexivity.
    rewrite (IH Hrest). fold (remove_whitespace g).
    now rewrite (remove_whitespace_clean g Hg).
Qed.

Lemma cells_of_all_bits (bs : list Z) :
  map bit_cell (map (fun u => [u]) (concat (map eight_bits bs)))
  = flat_map byte_cells bs.
Proof.
  induction bs as [|b rest IH]; [reflexivity|].
  rewrite map_cons, concat_cons, !map_app.
  change (flat_map byte_cells (b :: rest))
    with (byte_cells b ++ flat_map byte_cells rest).
  f_equal; [exact (cells_of_eight_bits b) | exact IH].
Qed.

(** X13: the flat bit display of the module's binary rendering of [n] bytes
    is [8n] boxes: the eight bits of each byte in turn, most significant
    first, a box on exactly when its bit is set. *)
Theorem flat_bits_of_bytes (bs : list Z) (Hbytes : Forall is_byte bs) :
  ComponentsUi.BitVisualizer (UtilsEncoding.toBinaryString bs)
  = flat_map byte_cells bs
  /\ length (ComponentsUi.BitVisualizer (UtilsEncoding.toBinaryString bs))
     = (8 * length bs)%nat.
Proof.
  assert (H : ComponentsUi.BitVisualizer (UtilsEncoding.toBinaryString bs)
              = flat_map byte_cells bs).
  { unfold ComponentsUi.BitVisualizer, UtilsEncoding.toBinaryString.
    rewrite (map_ext_Forall _ _ _ is_byte binary_of_byte_bits Hbytes).
    rewrite remove_whitespace_join
      by (apply Forall_map, Forall_forall; intros; apply eight_bits_clean).
    apply cells_of_all_bits. }
  split; [exact H|]. rewrite H. clear.
  induction bs as [|b rest IH]; [reflexivity|].
  cbn [flat_map]. rewrite length_app, IH. cbn [byte_cells map length]. lia.
Qed.

Lemma flat_bits_of_bytes_witness :
  ComponentsUi.BitVisualizer (UtilsEncoding.toBinaryString [0x41])
  = flat_map byte_cells [0x41]
  /\ length (ComponentsUi.BitVisualizer (UtilsEncoding.toBinaryString [0x41]))
     = (8 * length [0x41])%nat.
Proof.
  apply (flat_bits_of_bytes [0x41]). repeat constructor; unfold is_byte; lia.
Defined.

(* ================================================================== *)
(** * The selection of the converter view *)
(* ================================================================== *)

Lemma array_get_in_range {A} (arr : list A) (i : Z) :
  0 <= i < Z.of_nat (length arr) -> exists x, array_get arr i = Some x.
Proof.
  intros Hi. unfold array_get. replace (i <? 0) with false by lia.
  destruct (nth_error arr (Z.to_nat i)) as [x|] eqn:E; [now exists x|].
  apply nth_error_None in E. lia.
Qed.

(** X14: after the effect on a changed input, from a selection that is -1
    or an index: on the empty input the selection is -1 and no record is
    selected; on a non-empty input the selection is an index below the
    number of code units of the input, never more records than that; and
    when the input has no surrogate code unit the selected record exists
    and is the one of the code unit at that index. *)
Theorem selection_after_input
    (codec : option EncodingLib) (st : InlinedView.ConverterState)
    (Hsel : -1 <= InlinedView.selectedIndex st) :
  exists st',
    InlinedView.input_effect codec st = Normal st'
    /\ Inlined.analyzeText codec (InlinedView.input st)
       = Normal (InlinedView.analysis st')
    /\ (length (InlinedView.analysis st') <= length (InlinedView.input st))%nat
    /\ (InlinedView.input st = [] ->
        InlinedView.selectedIndex st' = -1
        /\ InlinedView.selectedCharData st' = None)
    /\ (InlinedView.input st <> [] ->
        0 <= InlinedView.selectedIndex st'
          < Z.of_nat (length (InlinedView.input st)))
    /\ (InlinedView.input st <> [] ->
        Forall (fun u => is_surrogate u = false) (InlinedView.input st) ->
        exists r u,
          InlinedView.selectedCharData st' = Some r
          /\ nth_error (InlinedView.input st)
               (Z.to_nat (InlinedView.selectedIndex st')) = Some u
          /\ Inlined.char r = [u]).
Proof.
  destruct st as [text old sel]. cbn [InlinedView.selectedIndex InlinedView.input] in *.
  unfold InlinedView.input_effect. cbn [InlinedView.input InlinedView.selectedIndex].
  rewrite analyzeText_returns. cbn [bind].
  set (len := Z.of_nat (length text)).
  set (sel' := if len =? 0 then -1
               else if sel >=? len then 0
               else if (sel =? -1) && (len >? 0) then 0 else sel).
  assert (Hrange : text <> [] -> 0 <= sel' < len).
  { intros Hne. assert (0 < len) by (subst len; destruct text; [congruence | cbn; lia]).
    subst sel'. replace (len =? 0) with false by lia.
    destruct (Z.geb_spec sel len); [lia|].
    destruct (Z.eqb_spec sel (-1)); cbn [andb].
    - replace (len >? 0) with true by lia. lia.
    - lia. }
  eexists. split; [reflexivity|].
  cbn [InlinedView.analysis InlinedView.selectedIndex].
  split; [reflexivity|]. split; [|split; [|split]].
  - unfold inlined_records. rewrite map_pure_length. apply Array_from_length_le.
  - intros ->. split; reflexivity.
  - exact Hrange.
  - intros Hne Hbmp. specialize (Hrange Hne).
    unfold InlinedView.selectedCharData, array_get.
    cbn [InlinedView.analysis InlinedView.selectedIndex]. fold len. fold sel'.
    replace (sel' <? 0) with false by lia.
    rewrite inlined_records_nth, (Array_from_no_surrogate text Hbmp), nth_error_map.
    destruct (nth_error text (Z.to_nat sel')) as [u|] eqn:E.
    + cbn [option_map]. eexists. exists u. repeat split.
    + apply nth_error_None in E. lia.
Qed.

Lemma selection_after_input_witness :
  exists st',
    InlinedView.input_effect None
      {| InlinedView.input := lit "AB";
         InlinedView.analysis := [];
         InlinedView.selectedIndex := 4 |} = Normal st'
    /\ InlinedView.selectedIndex st' = 0
    /\ exists r, InlinedView.selectedCharData st' = Some r
                 /\ Inlined.char r = lit "A".
Proof.
  destruct (selection_after_input None
              {| InlinedView.input := lit "AB";
                 InlinedView.analysis := [];
                 InlinedView.selectedIndex := 4 |} ltac:(cbn; lia))
    as (st' & Hrun & _).
  exists st'. split; [exact Hrun|].
  injection Hrun as <-. split; [reflexivity|]. eexists. split; reflexivity.
Defined.

(* ================================================================== *)
(** * The quiz view *)
(* ================================================================== *)

Lemma click_after_click (o1 o2 : jsstring) (st : QuizView.QuizState) :
  QuizView.click o2 (QuizView.click o1 st) = QuizView.click o1 st.
Proof.
  unfold QuizView.click. destruct (QuizView.showResult st) eqn:E.
  - now rewrite E.
  - reflexivity.
Qed.

(** X15: in every state the quiz view can reach, the result is shown
    exactly when an option is selected, and the selected option is one of
    the options of the quiz on display. The first click decides: a further
    click changes nothing until the next quiz is loaded. *)
Theorem quiz_invariant (st : QuizView.QuizState) (Hst : QuizView.reachable st) :
  (QuizView.showResult st = true <-> QuizView.selectedOption st <> None)
  /\ (forall o, QuizView.selectedOption st = Some o ->
                exists q, QuizView.quiz st = Some q /\ In o (QuizView.options q))
  /\ (forall o1 o2,
         QuizView.click o2 (QuizView.click o1 st) = QuizView.click o1 st).
Proof.
  split; [|split; [|intros; apply click_after_click]].
  - induction Hst as [|q st _ _|q o st _ IH Hq Ho].
    + cbn. split; [discriminate | congruence].
    + cbn. split; [discriminate | congruence].
    + unfold QuizView.click. destruct (QuizView.showResult st) eqn:E.
      * now rewrite E.
      * cbn. split; [discriminate | reflexivity].
  - induction Hst as [|q st _ _|q o st Hst IH Hq Ho]; intros o'.
    + discriminate.
    + discriminate.
    + unfold QuizView.click. destruct (QuizView.showResult st) eqn:E.
      * apply IH.
      * cbn. intros H. injection H as <-. now exists q.
Qed.

Lemma quiz_invariant_witness :
  let q := {| QuizView.question := lit "Q";
              QuizView.options := [lit "A"; lit "a"];
              QuizView.answer := lit "A";
              QuizView.explanation := lit "E" |} in
  let st := QuizView.click (lit "a") (QuizView.loadQuiz q QuizView.initial_state) in
  QuizView.showResult st = true
  /\ QuizView.click (lit "A") st = st.
Proof.
  intros q st.
  assert (Hst : QuizView.reachable st).
  { apply (QuizView.reach_click q).
    - apply QuizView.reach_load, QuizView.reach_initial.
    - reflexivity.
    - right. now left. }
  destruct (quiz_invariant st Hst) as (H1 & _ & _).
  split; [apply H1; discriminate|].
  destruct (quiz_invariant (QuizView.loadQuiz q QuizView.initial_state)
              (QuizView.reach_load q _ QuizView.reach_initial)) as (_ & _ & H3).
  exact (H3 (lit "a") (lit "A")).
Defined.

Lemma reachable_show_selected (st : QuizView.QuizState) :
  QuizView.reachable st ->
  QuizView.showResult st = false -> QuizView.selectedOption st = None.
Proof.
  induction 1 as [|q st _ _|q o st _ IH Hq Ho]; [reflexivity | reflexivity|].
  unfold QuizView.click. destruct (QuizView.showResult st) eqn:E.
  - rewrite E. discriminate.
  - cbn. discriminate.
Qed.

(** X16: how the options are styled in a reachable state. Before the
    answer every option is neutral; the "picked" style is never used. Once
    the result is shown, exactly the options equal to the answer are marked
    correct, the selected option is marked wrong exactly when it is not the
    answer, and the verdict is "correct" exactly when the selected option is
    the answer. *)
Theorem quiz_styles
    (st : QuizView.QuizState) (q : QuizView.Quiz) (o : jsstring)
    (Hst : QuizView.reachable st) :
  QuizView.stateClass st q o <> QuizView.Picked
  /\ (QuizView.showResult st = false ->
      QuizView.stateClass st q o = QuizView.Neutral)
  /\ (QuizView.showResult st = true ->
      (QuizView.stateClass st q o = QuizView.Correct <-> o = QuizView.answer q)
      /\ (QuizView.stateClass st q o = QuizView.Wrong
          <-> o <> QuizView.answer q /\ QuizView.selectedOption st = Some o)
      /\ (QuizView.verdict_correct st q = true
          <-> QuizView.selectedOption st = Some (QuizView.answer q))).
Proof.
  assert (Hsel : forall x, QuizView.is_selected st x = true
                           <-> QuizView.selectedOption st = Some x).
  { intros x. unfold QuizView.is_selected.
    destruct (QuizView.selectedOption st) as [s|]; [|split; discriminate].
    rewrite jsstring_eqb_eq. split; congruence. }
  pose proof (reachable_show_selected st Hst) as Hnone.
  unfold QuizView.stateClass, QuizView.verdict_correct.
  destruct (QuizView.showResult st).
  - split; [|split; [discriminate|intros _]].
    + destruct (jsstring_eqb o (QuizView.answer q)); [discriminate|].
      destruct (QuizView.is_selected st o); discriminate.
    + destruct (jsstring_eqb o (QuizView.answer q)) eqn:E.
      * apply jsstring_eqb_eq in E.
        split; [split; congruence|].
        split; [split; [discriminate | intros [Hne _]; congruence] | apply Hsel].
      * assert (Hne : o <> QuizView.answer q)
          by (intros H; apply jsstring_eqb_eq in H; congruence).
        destruct (QuizView.is_selected st o) eqn:E'.
        -- apply Hsel in E'.
           split; [split; [discriminate | congruence]|].
           split; [split; [intros _; now split | reflexivity] | apply Hsel].
        -- split; [split; [discriminate | congruence]|].
           split; [|apply Hsel].
           split; [discriminate|].
           intros [_ H]. apply Hsel in H. congruence.
  - specialize (Hnone eq_refl). unfold QuizView.is_selected. rewrite Hnone.
    split; [discriminate|]. split; [reflexivity | discriminate].
Qed.

Lemma quiz_styles_witness :
  let q := {| QuizView.question := lit "Q";
              QuizView.options := [lit "A"; lit "a"];
              QuizView.answer := lit "A";
              QuizView.explanation := lit "E" |} in
  let st := QuizView.click (lit "a") (QuizView.loadQuiz q QuizView.initial_state) in
  QuizView.stateClass st q (lit "a") = QuizView.Wrong
  /\ QuizView.stateClass st q (lit "A") = QuizView.Correct
  /\ QuizView.verdict_correct st q = false.
Proof.
  intros q st.
  assert (Hst : QuizView.reachable st).
  { apply (QuizView.reach_click q).
    - apply QuizView.reach_load, QuizView.reach_initial.
    - reflexivity.
    - right. now left. }
  destruct (quiz_styles st q (lit "a") Hst) as (_ & _ & H).
  destruct (H eq_refl) as (_ & Hwrong & _).
  split; [apply Hwrong; split; [discriminate | reflexivity]|].
  split; reflexivity.
Defined.

(* ================================================================== *)
(** * Labels identify code points *)
(* ================================================================== *)

(** X17: two different code points never get the same label: the number
    can be read back from the label. *)
Theorem codePoint_label_injective (n m : Z) (Hn : 0 <= n) (Hm : 0 <= m)
    (Hsame : codePoint_label n = codePoint_label m) :
  n = m.
Proof.
  destruct (codePoint_label_shape n Hn) as (ds1 & E1 & _ & _ & P1).
  destruct (codePoint_label_shape m Hm) as (ds2 & E2 & _ & _ & P2).
  rewrite E1, E2 in Hsame. apply app_inv_head in Hsame. subst ds2.
  congruence.
Qed.

Lemma codePoint_label_injective_witness : 0x3042 = 0x3042.
Proof.
  apply (codePoint_label_injective 0x3042 0x3042); [lia | lia | reflexivity].
Defined.
